(** * EMI calculator: the amortization engine of [src/utils/finance.ts]

    The development embeds the two functions of the engine,
    [calculateEMI] and [generateSchedule], and states the properties of
    the loan summary and of the month-by-month schedule over them.

    ** Two readings of [number]

    A TypeScript [number] is modelled by [number] below: a rational, or
    one of the three special values of IEEE 754 arithmetic.  The engine
    is embedded over it twice.

    - Module [B64] is the engine as it runs.  Every sum, difference,
      product and quotient is the exact result rounded to the nearest
      binary64 number ([B64.round64]), with overflow to an infinity and
      underflow to 0; [tenureYears] is any number; [Math.pow], whose
      accuracy ECMAScript leaves to the implementation, is a parameter;
      [push] throws on a full array and a [Date] out of range is
      invalid.  The properties of the totals, the entries, the length,
      the final balance, the monotonicity, the labels and the clamp are
      stated and proved over it.
    - The engine at the top level computes finite results exactly and
      takes [tenureYears] as an integer.  Its special values arise where
      the source produces them from exact operands (a division by zero,
      a product of zero and an infinity, a difference of infinities).
      It carries the properties that the special values and the shape
      of the code decide: the [0/0] of a zero rate, the payment field of
      the entries, the schedule after the payoff, and the data the
      caller hands to its charts and its table.

    The two zeros of IEEE 754 are one value throughout: they are equal
    under [===], [Math.max(0, -0)] is [0], and the only zero divisor of
    the engine is a difference [x - x], which is [+0]. *)

From Stdlib Require Import ZArith QArith Qpower Qreduction Qabs Qround.
From Stdlib Require Qcanon.
From Stdlib Require Import List Bool Lia Lqa.
Import ListNotations.

Local Open Scope Z_scope.

(** ** Numbers *)

Module Num.

Inductive number : Type :=
| Fin (q : Q)
| PosInf
| NegInf
| NaN.

(** Finite results are kept in lowest terms. *)
Definition fin (q : Q) : number := Fin (Qred q).

Definition of_Z (z : Z) : number := Fin (inject_Z z).

(** The sign of a finite operand decides the sign of an infinite result. *)
Definition signed_inf (c : comparison) : number :=
  match c with
  | Eq => NaN
  | Gt => PosInf
  | Lt => NegInf
  end.

(** [a + b] *)
Definition add (a b : number) : number :=
  match a, b with
  | NaN, _ | _, NaN => NaN
  | Fin x, Fin y => fin (x + y)
  | PosInf, NegInf | NegInf, PosInf => NaN
  | PosInf, _ | _, PosInf => PosInf
  | NegInf, _ | _, NegInf => NegInf
  end.

(** [a - b] *)
Definition sub (a b : number) : number :=
  match a, b with
  | NaN, _ | _, NaN => NaN
  | Fin x, Fin y => fin (x - y)
  | PosInf, PosInf | NegInf, NegInf => NaN
  | PosInf, _ | _, NegInf => PosInf
  | NegInf, _ | _, PosInf => NegInf
  end.

(** [a * b]: zero times an infinity is [NaN]. *)
Definition mul (a b : number) : number :=
  match a, b with
  | NaN, _ | _, NaN => NaN
  | Fin x, Fin y => fin (x * y)
  | Fin x, PosInf | PosInf, Fin x => signed_inf (x ?= 0)%Q
  | Fin x, NegInf | NegInf, Fin x => signed_inf (0 ?= x)%Q
  | PosInf, PosInf | NegInf, NegInf => PosInf
  | PosInf, NegInf | NegInf, PosInf => NegInf
  end.

(** [a / b]: [0/0] and [inf/inf] are [NaN], [x/0] is an infinity of the
    sign of [x]. *)
Definition div (a b : number) : number :=
  match a, b with
  | NaN, _ | _, NaN => NaN
  | Fin x, Fin y =>
      if Qeq_bool y 0 then signed_inf (x ?= 0)%Q else fin (x / y)
  | Fin _, PosInf | Fin _, NegInf => Fin 0
  | PosInf, Fin y => if Qle_bool 0 y then PosInf else NegInf
  | NegInf, Fin y => if Qle_bool 0 y then NegInf else PosInf
  | _, _ => NaN
  end.

(** [Math.pow(base, exponent)] at an integer exponent, with the special
    cases of ECMAScript's Number::exponentiate. *)
Definition Math_pow (base : number) (exponent : Z) : number :=
  if exponent =? 0 then Fin 1
  else
    match base with
    | NaN => NaN
    | PosInf => if 0 <? exponent then PosInf else Fin 0
    | NegInf =>
        if 0 <? exponent
        then (if Z.odd exponent then NegInf else PosInf)
        else Fin 0
    | Fin x =>
        if Qeq_bool x 0
        then (if 0 <? exponent then Fin 0 else PosInf)
        else fin (x ^ exponent)
    end.

(** [a <= b]; every comparison with [NaN] is false. *)
Definition num_leb (a b : number) : bool :=
  match a, b with
  | NaN, _ | _, NaN => false
  | Fin x, Fin y => Qle_bool x y
  | NegInf, _ | _, PosInf => true
  | _, _ => false
  end.

(** [a === b]; [NaN] is not equal to itself. *)
Definition num_eqb (a b : number) : bool :=
  match a, b with
  | Fin x, Fin y => Qeq_bool x y
  | PosInf, PosInf | NegInf, NegInf => true
  | _, _ => false
  end.

(** [Math.max(a, b)]: [NaN] if either argument is. *)
Definition Math_max (a b : number) : number :=
  match a, b with
  | NaN, _ | _, NaN => NaN
  | _, _ => if num_leb a b then b else a
  end.

Definition num_le (a b : number) : Prop := num_leb a b = true.
Definition num_eq (a b : number) : Prop := num_eqb a b = true.

End Num.

Import Num.

Declare Scope num_scope.
Delimit Scope num_scope with num.
Infix "===" := num_eq (at level 70, no associativity) : num_scope.
Infix "<=" := num_le : num_scope.

(** ** Dates and the system clock *)

Module JsDate.

(** The two local calendar fields of a [Date] that the engine reads:
    [getFullYear()] and [getMonth()], the latter from 0 (January). *)
Record Date : Type := mkDate { getFullYear : Z; getMonth : Z }.

(** [new Date(year, monthIndex)]: the first day of a month; a month index
    outside 0..11 carries into the year, and a year in 0..99 is read as
    19xx. *)
Definition make (year monthIndex : Z) : Date :=
  let yr := if (0 <=? year) && (year <=? 99) then 1900 + year else year in
  {| getFullYear := yr + monthIndex / 12;
     getMonth := monthIndex mod 12 |}.

(** The system clock: [reading k] is what the [k]-th [new Date()] of a run
    returns, and [reads] counts the readings made so far. *)
Record Clock : Type := mkClock { reading : nat -> Date; reads : nat }.

(** [new Date()] *)
Definition now (c : Clock) : Date * Clock :=
  (reading c (reads c), {| reading := reading c; reads := S (reads c) |}).

End JsDate.

Import JsDate.

(** ** The data model of [types.ts] *)

Record ScheduleEntry : Type := mkScheduleEntry {
  month : Z;
  year : Z;
  emi : number;
  principal : number;
  interest : number;
  balance : number
}.

Record LoanSummary : Type := mkLoanSummary {
  monthlyEmi : number;
  totalInterest : number;
  totalPayable : number;
  principalAmount : number;
  tenureMonths : number
}.

(** ** The engine of [utils/finance.ts], computed exactly *)

(** [annualRate / 12 / 100], the first line of both functions. *)
Definition monthly_rate (annualRate : number) : number :=
  div (div annualRate (of_Z 12)) (of_Z 100).

Definition calculateEMI (principal annualRate : number) (tenureYears : Z)
  : LoanSummary :=
  let monthlyRate := div (div annualRate (of_Z 12)) (of_Z 100) in
  let tenureMonths := tenureYears * 12 in
  let emi :=
    div (mul (mul principal monthlyRate)
             (Math_pow (add (of_Z 1) monthlyRate) tenureMonths))
        (sub (Math_pow (add (of_Z 1) monthlyRate) tenureMonths) (of_Z 1)) in
  let totalPayable := mul emi (of_Z tenureMonths) in
  let totalInterest := sub totalPayable principal in
  {| monthlyEmi := emi;
     totalInterest := totalInterest;
     totalPayable := totalPayable;
     principalAmount := principal;
     tenureMonths := of_Z tenureMonths |}.

(** One iteration of the [for] loop: the entry pushed for period [i] and
    the balance carried to the next period. *)
Definition schedule_step (monthlyRate emi : number) (startYear startMonth : Z)
  (i : Z) (balance : number) : ScheduleEntry * number :=
  let interest := mul balance monthlyRate in
  let principalPaid := sub emi interest in
  let balance := Math_max (of_Z 0) (sub balance principalPaid) in
  let date := JsDate.make startYear (startMonth + i) in
  ({| month := getMonth date + 1;
      year := getFullYear date;
      emi := emi;
      principal := principalPaid;
      interest := interest;
      balance := balance |}, balance).

(** The loop [for (let i = 1; i <= totalMonths; i++)], by the number of
    iterations that remain; [schedule] is the array being filled. *)
Fixpoint schedule_loop (monthlyRate emi : number) (startYear startMonth : Z)
  (remaining : nat) (i : Z) (balance : number)
  (schedule : list ScheduleEntry) : list ScheduleEntry :=
  match remaining with
  | O => schedule
  | S remaining' =>
      let (entry, balance') :=
        schedule_step monthlyRate emi startYear startMonth i balance in
      schedule_loop monthlyRate emi startYear startMonth
        remaining' (i + 1) balance' (schedule ++ [entry])
  end.

Definition generateSchedule (clock : Clock)
  (principal annualRate : number) (tenureYears : Z) (emi : number)
  : list ScheduleEntry * Clock :=
  let monthlyRate := div (div annualRate (of_Z 12)) (of_Z 100) in
  let totalMonths := tenureYears * 12 in
  let balance := principal in
  let (d1, clock1) := now clock in
  let startYear := getFullYear d1 in
  let (d2, clock2) := now clock1 in
  let startMonth := getMonth d2 in
  (schedule_loop monthlyRate emi startYear startMonth
     (Z.to_nat totalMonths) 1 balance [], clock2).

(** A clock that stands still at a given month. *)
Definition fixed_clock (y m : Z) : Clock :=
  {| reading := fun _ => {| getFullYear := y; getMonth := m |}; reads := 0 |}.

(** The decimal literal [n/d], as [1 # 1000000] for [1e-6]. *)
Definition ratio (n : Z) (d : positive) : number := Fin (n # d).

(** ** Exact values of finite numbers

    [rep a x]: the number [a] is finite and its value is the rational [x]. *)

Definition rep (a : number) (x : Q) : Prop :=
  match a with
  | Fin x' => x' == x
  | _ => False
  end.

(** [Math.max(0, b)] of a finite [b] is the larger of 0 and its value. *)
Definition clamp0 (y : Q) : Q := if Qle_bool 0 y then y else 0.

(** ** The loop, period by period *)

(** The balance carried out of one period. *)
Definition next_balance (monthlyRate emi : number) (b : number) : number :=
  Math_max (of_Z 0) (sub b (sub emi (mul b monthlyRate))).

(** The balance before the period of index [k] (from 0). *)
Definition balance_at (monthlyRate emi : number) (principal : number)
  (k : nat) : number :=
  Nat.iter k (next_balance monthlyRate emi) principal.

(** The recurrence of the balance on the rationals, at the monthly rate
    [mr] and the payment [e]: the balance before period [k] (from 0), from
    the principal [p]. *)
Fixpoint Bq (mr e : Q) (p : Q) (k : nat) : Q :=
  match k with
  | O => p
  | S j => clamp0 (Bq mr e p j - (e - Bq mr e p j * mr))
  end.




(** ** The caller, [App.tsx]

    The component derives the summary and the schedule from its three
    sliders, and hands them to two charts and a table. *)

(** [a < b]; false when either side is [NaN]. *)
Definition num_ltb (a b : number) : bool :=
  match a, b with
  | NaN, _ | _, NaN => false
  | Fin x, Fin y => negb (Qle_bool y x)
  | PosInf, _ | _, NegInf => false
  | _, _ => true
  end.

Definition num_lt (a b : number) : Prop := num_ltb a b = true.

Infix "<" := num_lt : num_scope.

(** [Number.isFinite(a)] *)
Definition finite (a : number) : Prop :=
  match a with
  | Fin _ => True
  | _ => False
  end.

(** [array.filter((x, i) => f(x, i))], from the index [i] on. *)
Fixpoint filter_from {A : Type} (f : A -> Z -> bool) (i : Z) (l : list A)
  : list A :=
  match l with
  | [] => []
  | x :: rest =>
      if f x i then x :: filter_from f (i + 1) rest
      else filter_from f (i + 1) rest
  end.

Definition Array_filter {A : Type} (f : A -> Z -> bool) (l : list A)
  : list A :=
  filter_from f 0 l.

(** The data of the balance chart:
    [schedule.filter((_, i) => i % 12 === 0 || i === schedule.length - 1)]. *)
Definition areaChartData (schedule : list ScheduleEntry)
  : list ScheduleEntry :=
  Array_filter
    (fun _ i => (Z.rem i 12 =? 0) || (i =? Z.of_nat (length schedule) - 1))
    schedule.

(** The test of that filter, for a schedule whose last index is [L]. *)
Definition sampled {A : Type} (L : Z) (x : A) (i : Z) : bool :=
  (Z.rem i 12 =? 0) || (i =? L).

(** The key of a row of the schedule table: [row.month + row.year]. *)
Definition rowKey (row : ScheduleEntry) : Z := month row + year row.

(** [const summary = useMemo(() => calculateEMI(amount, interest, tenure))] *)
Definition App_summary (amount interest : number) (tenure : Z) : LoanSummary :=
  calculateEMI amount interest tenure.

(** [const schedule = useMemo(() => generateSchedule(amount, interest,
    tenure, summary.monthlyEmi))] *)
Definition App_schedule (clock : Clock) (amount interest : number)
  (tenure : Z) : list ScheduleEntry :=
  fst (generateSchedule clock amount interest tenure
         (monthlyEmi (App_summary amount interest tenure))).


(** ** Binary64

    The functions of the engine as the source runs them: every sum,
    difference, product and quotient is the exact result rounded to the
    nearest binary64 number, ties to even, with overflow to an infinity and
    underflow through the subnormal numbers to 0.  A finite [number] of
    this part is a binary64 number when rounding leaves it as it is
    ([is_double]). *)

Module B64.

Definition pow2 (z : Z) : Q := (2 ^ z)%Q.

(** [ilog2 a] is the exponent [E] with [2^E <= a < 2^(E+1)], for [a > 0]. *)
Definition ilog2 (a : Q) : Z :=
  let e0 := Z.log2 (Qnum a) - Z.log2 (Zpos (Qden a)) in
  if Qle_bool (pow2 e0) a then e0 else e0 - 1.

(** The binade of [a], not below the least normal exponent. *)
Definition binade (a : Q) : Z := Z.max (ilog2 a) (-1022).

(** The exponent of the unit in the last place: 53 significant bits. *)
Definition quantum (a : Q) : Z := Z.max (ilog2 a) (-1022) - 52.

(** The nearest integer, ties to even. *)
Definition rne (s : Q) : Z :=
  let k := Qfloor s in
  match (s - inject_Z k ?= 1 # 2)%Q with
  | Lt => k
  | Gt => k + 1
  | Eq => if Z.even k then k else k + 1
  end.

(** The nearest multiple of the unit in the last place, for [a > 0]. *)
Definition round_pos (a : Q) : Q :=
  (inject_Z (rne (a / pow2 (quantum a))) * pow2 (quantum a))%Q.

(** The binary64 number nearest to [x]: an infinity from [2^1024] on. *)
Definition round64 (x : Q) : number :=
  match (x ?= 0)%Q with
  | Eq => Fin 0
  | Gt => let m := round_pos x in
          if Qle_bool (pow2 1024) m then PosInf else Fin (Qred m)
  | Lt => let m := round_pos (- x) in
          if Qle_bool (pow2 1024) m then NegInf else Fin (Qred (- m))
  end.

Definition rnd (a : number) : number :=
  match a with
  | Fin x => round64 x
  | _ => a
  end.

Definition is_double (a : number) : Prop := rnd a = a.

(** A number literal of the source or of an input, as [0.1] or [7.5]. *)
Definition literal (x : Q) : number := round64 x.

Definition add (a b : number) : number := rnd (Num.add a b).
Definition sub (a b : number) : number := rnd (Num.sub a b).
Definition mul (a b : number) : number := rnd (Num.mul a b).
Definition div (a b : number) : number := rnd (Num.div a b).

(** [Math.pow] is left to the implementation by ECMAScript ("an
    implementation-approximated value"): the engine takes it as a
    parameter.  [Math_pow_ref] is the power rounded to nearest at an
    integer exponent; it is used below only where the power is a binary64
    number itself (base 1, base 2), where every implementation returns
    it.  It does not model powers at other exponents. *)
Definition as_integer (x : Q) : option Z :=
  if (Qden (Qred x) =? 1)%positive then Some (Qnum (Qred x)) else None.

Definition Math_pow_ref (base exponent : number) : number :=
  match exponent with
  | Fin x =>
      match as_integer x with
      | Some n => rnd (Num.Math_pow base n)
      | None => NaN
      end
  | _ => NaN
  end.

(** *** [calculateEMI] *)

Definition monthly_rate (annualRate : number) : number :=
  div (div annualRate (of_Z 12)) (of_Z 100).

Definition calculateEMI (Math_pow : number -> number -> number)
  (principal annualRate tenureYears : number) : LoanSummary :=
  let monthlyRate := div (div annualRate (of_Z 12)) (of_Z 100) in
  let tenureMonths := mul tenureYears (of_Z 12) in
  let emi :=
    div (mul (mul principal monthlyRate)
             (Math_pow (add (of_Z 1) monthlyRate) tenureMonths))
        (sub (Math_pow (add (of_Z 1) monthlyRate) tenureMonths) (of_Z 1)) in
  let totalPayable := mul emi tenureMonths in
  let totalInterest := sub totalPayable principal in
  {| monthlyEmi := emi;
     totalInterest := totalInterest;
     totalPayable := totalPayable;
     principalAmount := principal;
     tenureMonths := tenureMonths |}.

(** *** Dates

    A [Date] holds a time within 100,000,000 days of the epoch, or is
    invalid.  The first day of a month, at local midnight, is within that
    range from May -271821 to September 275760, in every time zone. *)

Inductive DateValue : Type :=
| ValidDate (fullYear monthIndex : Z)
| InvalidDate.

Definition first_month : Z := 12 * (-271821) + 4.
Definition last_month : Z := 12 * 275760 + 8.

(** [new Date(year, monthIndex)] *)
Definition make (year monthIndex : Z) : DateValue :=
  let yr := if (0 <=? year) && (year <=? 99) then 1900 + year else year in
  let ym := yr + monthIndex / 12 in
  let mn := monthIndex mod 12 in
  if (first_month <=? 12 * ym + mn) && (12 * ym + mn <=? last_month)
  then ValidDate ym mn
  else InvalidDate.

(** [date.getFullYear()] and [date.getMonth()]: [NaN] of an invalid date. *)
Definition Date_getFullYear (d : DateValue) : number :=
  match d with
  | ValidDate y _ => of_Z y
  | InvalidDate => NaN
  end.

Definition Date_getMonth (d : DateValue) : number :=
  match d with
  | ValidDate _ m => of_Z m
  | InvalidDate => NaN
  end.

(** *** [generateSchedule] *)

Record ScheduleEntry : Type := mkScheduleEntry {
  month : number;
  year : number;
  emi : number;
  principal : number;
  interest : number;
  balance : number
}.

(** A call returns a value or throws. *)
Inductive Error : Type := RangeError | InvalidInput.

Inductive outcome (A : Type) : Type :=
| Returned (value : A)
| Threw (error : Error).

Arguments Returned {A} value.
Arguments Threw {A} error.

(** An array holds at most [2^32 - 1] elements: [push] onto a full array
    throws a [RangeError] (if the engine has not run out of memory
    before). *)
Definition max_array_length : Z := 2 ^ 32 - 1.

Definition Array_push {A : Type} (arr : list A) (x : A) : outcome (list A) :=
  if Z.of_nat (length arr) <? max_array_length
  then Returned (arr ++ [x])
  else Threw RangeError.

(** One iteration of the loop body, before the [push]. *)
Definition schedule_step (monthlyRate emi : number) (startYear startMonth : Z)
  (i : Z) (balance : number) : ScheduleEntry * number :=
  let interest := mul balance monthlyRate in
  let principalPaid := sub emi interest in
  let balance := Math_max (of_Z 0) (sub balance principalPaid) in
  let date := make startYear (startMonth + i) in
  ({| month := add (Date_getMonth date) (of_Z 1);
      year := Date_getFullYear date;
      emi := emi;
      principal := principalPaid;
      interest := interest;
      balance := balance |}, balance).

(** [for (let i = 1; i <= totalMonths; i++)].  The counter [i] is an
    integer below [2^53], where [i++] and [startMonth + i] are exact; the
    loop is unfolded at most [fuel] times. *)
Fixpoint schedule_loop (monthlyRate emi : number) (startYear startMonth : Z)
  (totalMonths : number) (fuel : nat) (i : Z) (balance : number)
  (schedule : list ScheduleEntry) : outcome (list ScheduleEntry) :=
  match fuel with
  | O => Returned schedule
  | S fuel' =>
      if num_leb (of_Z i) totalMonths
      then
        let (entry, balance') :=
          schedule_step monthlyRate emi startYear startMonth i balance in
        match Array_push schedule entry with
        | Returned schedule' =>
            schedule_loop monthlyRate emi startYear startMonth totalMonths
              fuel' (i + 1) balance' schedule'
        | Threw err => Threw err
        end
      else Returned schedule
  end.

(** The number of times the loop body is entered: the integers [i >= 1]
    with [i <= totalMonths], counted up to the [2^32]-th, whose [push]
    throws.  It is the fuel of the loop in [generateSchedule]; more fuel
    would change nothing ([B64Facts.schedule_loop_fuel]). *)
Definition iterations (totalMonths : number) : Z :=
  match totalMonths with
  | Fin x => Z.max 0 (Z.min (Qfloor x) (2 ^ 32))
  | PosInf => 2 ^ 32
  | _ => 0
  end.

Definition generateSchedule (clock : Clock)
  (principal annualRate tenureYears emi : number)
  : outcome (list ScheduleEntry) * Clock :=
  let monthlyRate := div (div annualRate (of_Z 12)) (of_Z 100) in
  let totalMonths := mul tenureYears (of_Z 12) in
  let balance := principal in
  let (d1, clock1) := now clock in
  let startYear := getFullYear d1 in
  let (d2, clock2) := now clock1 in
  let startMonth := getMonth d2 in
  (schedule_loop monthlyRate emi startYear startMonth totalMonths
     (Z.to_nat (iterations totalMonths)) 1 balance [], clock2).

(** The balance carried out of one period, and the balance before the
    period of index [k] (from 0). *)
Definition next_balance (monthlyRate emi : number) (b : number) : number :=
  Math_max (of_Z 0) (sub b (sub emi (mul b monthlyRate))).

Definition balance_at (monthlyRate emi : number) (principal : number)
  (k : nat) : number :=
  Nat.iter k (next_balance monthlyRate emi) principal.

(** The entries the loop pushes in [n] iterations from period [i]. *)
Fixpoint entries (monthlyRate emi : number) (startYear startMonth : Z)
  (n : nat) (i : Z) (balance : number) : list ScheduleEntry :=
  match n with
  | O => []
  | S n' =>
      fst (schedule_step monthlyRate emi startYear startMonth i balance)
      :: entries monthlyRate emi startYear startMonth n' (i + 1)
           (next_balance monthlyRate emi balance)
  end.

(** The balance before the period of entry [k] of a schedule. *)
Definition balance_before (schedule : list ScheduleEntry)
  (principal : number) (k : nat) : number :=
  match k with
  | O => principal
  | S j => match nth_error schedule j with
           | Some e => balance e
           | None => NaN
           end
  end.


(** [row.month + row.year], the key of a table row. *)
Definition rowKey (row : ScheduleEntry) : number := add (month row) (year row).

(** A balance that is a number: finite, or [+Infinity]. *)
Definition finite_or_inf (b : number) : Prop :=
  b = PosInf \/ exists x, b = Fin x.

(** A balance between 0 and the principal [P]. *)
Definition in_range (P : Q) (b : number) : Prop :=
  exists x, b = Fin x /\ (0 <= x <= P)%Q /\ round64 x = Fin x.




(** A balance of at least the principal [P], or [+Infinity]. *)
Definition at_least (P : Q) (b : number) : Prop :=
  b = PosInf \/ exists x, b = Fin x /\ (P <= x)%Q /\ round64 x = Fin x.

End B64.

(** * Values of the arithmetic *)

Example make_rolls_over :
  make 2026 (10 + 2) = {| getFullYear := 2027; getMonth := 0 |}.
Proof. reflexivity. Qed.

Example zero_over_zero : div (of_Z 0) (of_Z 0) = NaN.
Proof. reflexivity. Qed.

Example max_of_nan : Math_max (of_Z 0) NaN = NaN.
Proof. reflexivity. Qed.

Lemma rep_Fin (x : Q) : rep (Fin x) x.
Proof. unfold rep. reflexivity. Qed.

Lemma rep_fin (x y : Q) : x == y -> rep (fin x) y.
Proof. intros H. unfold rep, fin. rewrite Qred_correct. exact H. Qed.

Lemma rep_of_Z (z : Z) : rep (of_Z z) (inject_Z z).
Proof. apply rep_Fin. Qed.

Lemma rep_eqv (a : number) (x y : Q) : rep a x -> x == y -> rep a y.
Proof.
  destruct a; unfold rep; try tauto. intros H1 H2. rewrite H1. exact H2.
Qed.

Lemma rep_add (a b : number) (x y : Q) :
  rep a x -> rep b y -> rep (add a b) (x + y).
Proof.
  destruct a, b; unfold rep, add, fin; try tauto.
  intros Ha Hb. rewrite Qred_correct, Ha, Hb. reflexivity.
Qed.

Lemma rep_sub (a b : number) (x y : Q) :
  rep a x -> rep b y -> rep (sub a b) (x - y).
Proof.
  destruct a, b; unfold rep, sub, fin; try tauto.
  intros Ha Hb. rewrite Qred_correct, Ha, Hb. reflexivity.
Qed.

Lemma rep_mul (a b : number) (x y : Q) :
  rep a x -> rep b y -> rep (mul a b) (x * y).
Proof.
  destruct a, b; unfold rep, mul, fin; try tauto.
  intros Ha Hb. rewrite Qred_correct, Ha, Hb. reflexivity.
Qed.

Lemma rep_div (a b : number) (x y : Q) :
  rep a x -> rep b y -> ~ y == 0 -> rep (div a b) (x / y).
Proof.
  destruct a as [x'| | |], b as [y'| | |]; unfold rep, div; try tauto.
  intros Ha Hb Hy.
  destruct (Qeq_bool y' 0) eqn:E.
  - apply Qeq_bool_iff in E. rewrite Hb in E. contradiction.
  - unfold fin. rewrite Qred_correct, Ha, Hb. reflexivity.
Qed.

Lemma rep_pow (a : number) (x : Q) (n : Z) :
  rep a x -> ~ x == 0 -> rep (Math_pow a n) (x ^ n).
Proof.
  destruct a as [x'| | |]; unfold rep at 1; try tauto.
  intros Ha Hx. unfold Math_pow.
  destruct (n =? 0)%Z eqn:En.
  - apply Z.eqb_eq in En. subst n. unfold rep. reflexivity.
  - destruct (Qeq_bool x' 0) eqn:E.
    + apply Qeq_bool_iff in E. rewrite Ha in E. contradiction.
    + apply rep_fin. rewrite Ha. reflexivity.
Qed.

Lemma rep_max0 (b : number) (y : Q) :
  rep b y -> rep (Math_max (of_Z 0) b) (clamp0 y).
Proof.
  destruct b as [y'| | |]; unfold rep at 1; try tauto.
  intros Hb. unfold clamp0, Math_max, of_Z, num_leb.
  change (inject_Z 0) with 0%Q.
  assert (E : Qle_bool 0 y' = Qle_bool 0 y).
  { destruct (Qle_bool 0 y) eqn:E1.
    - apply Qle_bool_iff. apply Qle_bool_iff in E1. rewrite Hb. exact E1.
    - destruct (Qle_bool 0 y') eqn:E2; [|reflexivity].
      apply Qle_bool_iff in E2. rewrite Hb in E2.
      apply Qle_bool_iff in E2. congruence. }
  rewrite E. destruct (Qle_bool 0 y); unfold rep; [exact Hb | reflexivity].
Qed.


Lemma clamp0_spec (y : Q) :
  ((0 <= y)%Q /\ clamp0 y == y) \/ ((y < 0)%Q /\ clamp0 y == 0).
Proof.
  unfold clamp0. destruct (Qle_bool 0 y) eqn:E.
  - left. split; [apply Qle_bool_iff; exact E | reflexivity].
  - right. split; [|reflexivity].
    apply Qnot_le_lt. intros H. apply Qle_bool_iff in H. congruence.
Qed.

Lemma rep_eq (a b : number) (x y : Q) :
  rep a x -> rep b y -> x == y -> (a === b)%num.
Proof.
  destruct a, b; unfold rep; try tauto.
  intros Ha Hb H. unfold num_eq, num_eqb. apply Qeq_bool_iff.
  rewrite Ha, Hb. exact H.
Qed.

Create HintDb rep discriminated.
#[local] Hint Resolve rep_Fin rep_of_Z rep_add rep_sub rep_mul
  rep_max0 : rep.

(** ** The loop of [generateSchedule] *)

Section Loop.

Variables (monthlyRate emi : number) (startYear startMonth : Z).

Lemma balance_at_shift (p : number) (k : nat) :
  balance_at monthlyRate emi (next_balance monthlyRate emi p) k
  = balance_at monthlyRate emi p (S k).
Proof.
  unfold balance_at. induction k as [|k IH]; simpl; [reflexivity|].
  rewrite IH. reflexivity.
Qed.

Lemma schedule_loop_acc (n : nat) :
  forall (i : Z) (b : number) (acc : list ScheduleEntry),
    schedule_loop monthlyRate emi startYear startMonth n i b acc
    = acc ++ schedule_loop monthlyRate emi startYear startMonth n i b [].
Proof.
  induction n as [|n IH]; intros i b acc; simpl.
  - rewrite app_nil_r. reflexivity.
  - rewrite IH. rewrite (IH _ _ [_]). rewrite <- app_assoc. reflexivity.
Qed.

Lemma schedule_loop_cons (n : nat) (i : Z) (b : number) :
  schedule_loop monthlyRate emi startYear startMonth (S n) i b []
  = fst (schedule_step monthlyRate emi startYear startMonth i b)
    :: schedule_loop monthlyRate emi startYear startMonth n (i + 1)
         (next_balance monthlyRate emi b) [].
Proof. simpl. rewrite schedule_loop_acc. reflexivity. Qed.

Lemma schedule_loop_length (n : nat) :
  forall (i : Z) (b : number),
    length (schedule_loop monthlyRate emi startYear startMonth n i b []) = n.
Proof.
  induction n as [|n IH]; intros i b; [reflexivity|].
  rewrite schedule_loop_cons. simpl. rewrite IH. reflexivity.
Qed.

Lemma schedule_loop_nth (n : nat) :
  forall (k : nat) (i : Z) (b : number),
    (k < n)%nat ->
    nth_error (schedule_loop monthlyRate emi startYear startMonth n i b []) k
    = Some (fst (schedule_step monthlyRate emi startYear startMonth
                   (i + Z.of_nat k) (balance_at monthlyRate emi b k))).
Proof.
  induction n as [|n IH]; intros k i b Hk; [lia|].
  rewrite schedule_loop_cons. destruct k as [|k].
  - simpl. rewrite Z.add_0_r. reflexivity.
  - cbn [nth_error]. rewrite IH by lia. rewrite balance_at_shift.
    replace (i + 1 + Z.of_nat k) with (i + Z.of_nat (S k)) by lia.
    reflexivity.
Qed.

End Loop.

(** The entries of the schedule, one by one: entry [k] (from 0) is the
    step of period [k + 1] from the balance before it. *)
Lemma generateSchedule_nth (clock : Clock) (p r : number) (t : Z) (e : number)
  (k : nat) :
  (k < Z.to_nat (t * 12))%nat ->
  nth_error (fst (generateSchedule clock p r t e)) k
  = Some (fst (schedule_step (monthly_rate r) e
                 (getFullYear (reading clock (reads clock)))
                 (getMonth (reading clock (S (reads clock))))
                 (1 + Z.of_nat k)
                 (balance_at (monthly_rate r) e p k))).
Proof.
  intros Hk. unfold generateSchedule. cbn [now fst snd reading reads].
  apply schedule_loop_nth. exact Hk.
Qed.

Lemma generateSchedule_length (clock : Clock) (p r : number) (t : Z)
  (e : number) :
  length (fst (generateSchedule clock p r t e)) = Z.to_nat (t * 12).
Proof.
  unfold generateSchedule. cbn [now fst snd reading reads].
  apply schedule_loop_length.
Qed.

Lemma generateSchedule_nth_inv (clock : Clock) (p r : number) (t : Z)
  (e : number) (k : nat) (en : ScheduleEntry) :
  nth_error (fst (generateSchedule clock p r t e)) k = Some en ->
  (k < Z.to_nat (t * 12))%nat
  /\ en = fst (schedule_step (monthly_rate r) e
                 (getFullYear (reading clock (reads clock)))
                 (getMonth (reading clock (S (reads clock))))
                 (1 + Z.of_nat k)
                 (balance_at (monthly_rate r) e p k)).
Proof.
  intros H.
  assert (Hk : (k < Z.to_nat (t * 12))%nat).
  { rewrite <- (generateSchedule_length clock p r t e).
    apply nth_error_Some. congruence. }
  split; [exact Hk|].
  rewrite generateSchedule_nth in H by exact Hk. congruence.
Qed.

(** ** The schedule over exact rationals

    With finite arguments every number of the schedule is finite; its
    value follows the recurrence [Bq] on the rationals. *)

Section Exact.

Variables (mr e : Q).

Variables (rate pay : number).
Hypothesis rate_rep : rep rate mr.
Hypothesis pay_rep : rep pay e.

Lemma rep_next_balance (b : number) (x : Q) :
  rep b x -> rep (next_balance rate pay b) (clamp0 (x - (e - x * mr))).
Proof. intros Hb. unfold next_balance. auto 6 with rep. Qed.

Lemma rep_balance_at (p0 : number) (p : Q) (k : nat) :
  rep p0 p -> rep (balance_at rate pay p0 k) (Bq mr e p k).
Proof.
  intros Hp. induction k as [|k IH]; [exact Hp|].
  unfold balance_at. cbn [Nat.iter Bq]. apply rep_next_balance. exact IH.
Qed.

Lemma rep_step_interest (y m i : Z) (b : number) (x : Q) :
  rep b x -> rep (interest (fst (schedule_step rate pay y m i b))) (x * mr).
Proof. intros Hb. cbn [schedule_step fst interest]. auto with rep. Qed.

Lemma rep_step_principal (y m i : Z) (b : number) (x : Q) :
  rep b x ->
  rep (principal (fst (schedule_step rate pay y m i b))) (e - x * mr).
Proof. intros Hb. cbn [schedule_step fst principal]. auto with rep. Qed.

Lemma rep_step_balance (y m i : Z) (b : number) (x : Q) :
  rep b x ->
  rep (balance (fst (schedule_step rate pay y m i b)))
      (clamp0 (x - (e - x * mr))).
Proof. intros Hb. apply rep_next_balance. exact Hb. Qed.

End Exact.

Lemma rep_monthly_rate (r : number) (x : Q) :
  rep r x -> rep (monthly_rate r) (x / 12 / 100).
Proof.
  intros Hr. unfold monthly_rate.
  apply (rep_div _ _ (x / 12) 100); [|apply rep_of_Z|discriminate].
  apply (rep_div _ _ x 12); [exact Hr|apply rep_of_Z|discriminate].
Qed.

(** C9. Every entry of the schedule carries in its [emi] field the very
    payment the caller passed, whatever the arguments are: the generator
    computes no payment of its own. *)
Theorem schedule_emi_is_argument (clock : Clock) (p r : number) (t : Z)
  (e : number) :
  Forall (fun en => emi en = e) (fst (generateSchedule clock p r t e)).
Proof.
  apply Forall_forall. intros en Hin.
  apply In_nth_error in Hin. destruct Hin as [k Hk].
  apply generateSchedule_nth_inv in Hk. destruct Hk as [_ ->].
  reflexivity.
Qed.

(** * The summary, computed exactly *)




(** C1, as the code has it. For every positive principal and positive
    tenure, at an annual rate of exactly 0 the formula is evaluated as it
    stands: its denominator [(1+0)^N - 1] and its numerator are both 0,
    and the payment, the total payable and the total interest are [NaN]. *)
Theorem calculateEMI_zero_rate (p r : Q) (t : Z) :
  (0 < p)%Q -> 0 < t -> r == 0 ->
  monthlyEmi (calculateEMI (Fin p) (Fin r) t) = NaN
  /\ totalPayable (calculateEMI (Fin p) (Fin r) t) = NaN
  /\ totalInterest (calculateEMI (Fin p) (Fin r) t) = NaN.
Proof.
  intros _ _ Hr.
  assert (Hm : rep (div (div (Fin r) (of_Z 12)) (of_Z 100)) 0).
  { eapply rep_eqv; [apply (rep_monthly_rate (Fin r) r (rep_Fin r))|].
    rewrite Hr. reflexivity. }
  assert (Hpow : rep (Math_pow (add (of_Z 1)
                                    (div (div (Fin r) (of_Z 12)) (of_Z 100)))
                               (t * 12)) 1).
  { eapply rep_eqv.
    - apply rep_pow; [|].
      + apply (rep_add _ _ 1 0); [apply (rep_of_Z 1)|exact Hm].
      + discriminate.
    - apply Qpower_1. }
  assert (He : monthlyEmi (calculateEMI (Fin p) (Fin r) t) = NaN).
  { cbn [calculateEMI monthlyEmi].
    pose proof (rep_mul _ _ _ _ (rep_mul _ _ _ _ (rep_Fin p) Hm) Hpow) as Hn.
    pose proof (rep_sub _ _ _ _ Hpow (rep_of_Z 1)) as Hd.
    destruct (mul _ _) as [n| | |]; try contradiction.
    destruct (sub _ _) as [d| | |]; try contradiction.
    unfold rep in Hn, Hd. unfold div.
    assert (Ed : Qeq_bool d 0 = true).
    { apply Qeq_bool_iff. rewrite Hd. reflexivity. }
    rewrite Ed.
    assert (En : (n ?= 0)%Q = Eq).
    { apply Qeq_alt. rewrite Hn. ring. }
    rewrite En. reflexivity. }
  split; [exact He|].
  cbn [calculateEMI totalPayable totalInterest monthlyEmi] in *.
  rewrite He. split; reflexivity.
Qed.

Lemma calculateEMI_zero_rate_witness :
  ((0 < 100000)%Q /\ 0 < 10 /\ 0 == 0)
  /\ monthlyEmi (calculateEMI (Fin 100000) (Fin 0) 10) = NaN.
Proof.
  split.
  - split; [reflexivity|split; [lia|reflexivity]].
  - apply (calculateEMI_zero_rate 100000 0 10); [reflexivity|lia|reflexivity].
Defined.

(** C1 as stated fails at principal 100000, rate 0, tenure 10 years: the
    payment is not 100000/120 and the total interest is not 0. *)
Lemma calculateEMI_zero_rate_no_limit :
  ~ ((monthlyEmi (calculateEMI (of_Z 100000) (of_Z 0) 10)
      === div (of_Z 100000) (of_Z 120))%num
     /\ (totalInterest (calculateEMI (of_Z 100000) (of_Z 0) 10)
         === of_Z 0)%num).
Proof. intros [H _]. vm_compute in H. discriminate H. Qed.

(** * The schedule under the EMI of the formula, computed exactly *)

Section Amortization.

(** Principal [p], monthly rate [mr > 0], [N] periods, and the payment
    [e] of the formula. *)
Variables (p mr e : Q) (N : nat).
Hypothesis p_pos : (0 < p)%Q.
Hypothesis mr_pos : (0 < mr)%Q.
Hypothesis N_pos : (0 < N)%nat.
Hypothesis e_formula :
  e == p * mr * (1 + mr) ^ Z.of_nat N / ((1 + mr) ^ Z.of_nat N - 1).










End Amortization.

(** The three amounts of entry [k] (from 0), for a finite payment. *)
Lemma entry_rep (clock : Clock) (p r : Q) (t : Z) (pay : number) (e : Q)
  (k : nat) (en : ScheduleEntry) :
  rep pay e ->
  nth_error (fst (generateSchedule clock (Fin p) (Fin r) t pay)) k = Some en ->
  rep (interest en) (Bq (r / 12 / 100) e p k * (r / 12 / 100))
  /\ rep (principal en) (e - Bq (r / 12 / 100) e p k * (r / 12 / 100))
  /\ rep (balance en) (Bq (r / 12 / 100) e p (S k)).
Proof.
  intros He H. apply generateSchedule_nth_inv in H. destruct H as [_ ->].
  pose proof (rep_monthly_rate (Fin r) r (rep_Fin r)) as Hr.
  pose proof (rep_balance_at _ e _ _ Hr He (Fin p) p k (rep_Fin p)) as Hb.
  split; [|split].
  - eapply rep_step_interest; eassumption.
  - eapply rep_step_principal; eassumption.
  - cbn [Bq]. eapply rep_step_balance; eassumption.
Qed.


(** * The schedule after the payoff, and the caller *)


Lemma rep_eq_inv (a b : number) (x y : Q) :
  rep a x -> rep b y -> (a === b)%num -> x == y.
Proof.
  destruct a as [x'| | |], b as [y'| | |]; unfold rep; try tauto.
  intros Ha Hb H. unfold num_eq, num_eqb in H. apply Qeq_bool_iff in H.
  rewrite <- Ha, <- Hb. exact H.
Qed.





Lemma Bq_stays_zero (mr e p : Q) (j d : nat) :
  (0 <= e)%Q -> Bq mr e p j == 0 -> Bq mr e p (j + d) == 0.
Proof.
  intros He Hj. induction d as [|d IH].
  - rewrite Nat.add_0_r. exact Hj.
  - rewrite Nat.add_succ_r. cbn [Bq].
    destruct (clamp0_spec (Bq mr e p (j + d)
                           - (e - Bq mr e p (j + d) * mr))%Q)
      as [[H1 ->]|[H1 ->]]; [|reflexivity].
    rewrite IH in *. lra.
Qed.

(** X5. A loan paid off early stays paid off, and the schedule keeps
    billing it: for a payment of 0 or more, once an entry has balance 0
    every later entry has balance 0 and interest 0, and still shows the
    whole payment as its principal portion. *)
Theorem paid_off_stays_paid_off (clock : Clock) (p r e : Q) (t : Z)
  (j k : nat) (a b : ScheduleEntry) :
  (0 <= e)%Q -> (j < k)%nat ->
  nth_error (fst (generateSchedule clock (Fin p) (Fin r) t (Fin e))) j
  = Some a ->
  nth_error (fst (generateSchedule clock (Fin p) (Fin r) t (Fin e))) k
  = Some b ->
  (balance a === of_Z 0)%num ->
  (balance b === of_Z 0)%num
  /\ (interest b === of_Z 0)%num
  /\ (principal b === Fin e)%num.
Proof.
  intros He Hjk Ha Hb H0.
  destruct (entry_rep _ _ _ _ _ _ _ _ (rep_Fin e) Ha) as (_ & _ & Hba).
  destruct (entry_rep _ _ _ _ _ _ _ _ (rep_Fin e) Hb) as (Hib & Hpb & Hbb).
  pose proof (rep_eq_inv _ _ _ _ Hba (rep_of_Z 0) H0) as Hz.
  change (inject_Z 0) with 0%Q in Hz.
  assert (Hk : Bq (r / 12 / 100) e p k == 0).
  { replace k with (S j + (k - S j))%nat by lia.
    apply Bq_stays_zero; assumption. }
  assert (Hk' : Bq (r / 12 / 100) e p (S k) == 0).
  { replace (S k) with (S j + (S k - S j))%nat by lia.
    apply Bq_stays_zero; assumption. }
  split; [|split].
  - eapply rep_eq; [exact Hbb|apply (rep_of_Z 0)|exact Hk'].
  - eapply rep_eq; [exact Hib|apply (rep_of_Z 0)|]. rewrite Hk. ring.
  - eapply rep_eq; [exact Hpb|apply rep_Fin|]. rewrite Hk. ring.
Qed.

Lemma paid_off_stays_paid_off_witness :
  ((0 <= 600)%Q /\ (0 < 5)%nat)
  /\ exists a b,
      nth_error (fst (generateSchedule (fixed_clock 2026 10)
                        (Fin 1000) (Fin 12) 1 (Fin 600))) 1 = Some a
      /\ nth_error (fst (generateSchedule (fixed_clock 2026 10)
                           (Fin 1000) (Fin 12) 1 (Fin 600))) 5 = Some b
      /\ (balance a === of_Z 0)%num
      /\ (principal b === Fin 600)%num.
Proof.
  split.
  - split; [discriminate|lia].
  - eexists. eexists. split; [vm_compute; reflexivity|].
    split; [vm_compute; reflexivity|]. split; [vm_compute; reflexivity|].
    eapply (paid_off_stays_paid_off (fixed_clock 2026 10) 1000 12 600 1 1 5);
      [discriminate|lia|vm_compute; reflexivity|vm_compute; reflexivity
      |vm_compute; reflexivity].
Defined.

(** * The balance chart *)

Section ChartSample.

Variable A : Type.

Lemma sampled_true (L i : Z) (x : A) :
  0 <= i -> sampled L x i = true <-> (i mod 12 = 0 \/ i = L).
Proof.
  intros Hi. unfold sampled. rewrite Z.rem_mod_nonneg by lia.
  rewrite orb_true_iff, !Z.eqb_eq. reflexivity.
Qed.

(** The number of kept entries: the multiples of 12 among the indices,
    and the last index when it is not one of them. *)
Lemma filter_from_length (L : Z) (l : list A) :
  forall i : Z,
    0 <= i ->
    Z.of_nat (length (filter_from (sampled L) i l))
    = (i + Z.of_nat (length l) + 11) / 12 - (i + 11) / 12
      + (if (i <=? L) && (L <? i + Z.of_nat (length l))
            && negb (L mod 12 =? 0)
         then 1 else 0).
Proof.
  induction l as [|x l IH]; intros i Hi.
  - cbn [filter_from length]. change (Z.of_nat 0) with 0.
    rewrite Z.add_0_r, Z.sub_diag.
    destruct (i <=? L) eqn:E1; destruct (L <? i) eqn:E2; cbn [andb];
      try reflexivity.
    apply Z.leb_le in E1. apply Z.ltb_lt in E2. lia.
  - cbn [filter_from]. specialize (IH (i + 1) ltac:(lia)).
    assert (Hlen : Z.of_nat (length (x :: l)) = Z.of_nat (length l) + 1)
      by (cbn [length]; lia).
    rewrite Hlen.
    destruct (sampled L x i) eqn:Es.
    + apply sampled_true in Es; [|exact Hi].
      cbn [length]. rewrite Nat2Z.inj_succ, IH.
      destruct (i + 1 <=? L) eqn:E1; destruct (L <? i + 1 + Z.of_nat (length l)) eqn:E2;
        destruct (i <=? L) eqn:E3;
        destruct (L <? i + (Z.of_nat (length l) + 1)) eqn:E4;
        destruct (L mod 12 =? 0) eqn:E5; cbn [andb negb];
        rewrite ?Z.leb_le, ?Z.leb_gt, ?Z.ltb_lt, ?Z.ltb_ge, ?Z.eqb_eq,
          ?Z.eqb_neq in *;
        Z.to_euclidean_division_equations; lia.
    + assert (Hn : ~ (i mod 12 = 0 \/ i = L)).
      { intros H. apply (sampled_true L i x Hi) in H. congruence. }
      rewrite IH.
      destruct (i + 1 <=? L) eqn:E1; destruct (L <? i + 1 + Z.of_nat (length l)) eqn:E2;
        destruct (i <=? L) eqn:E3;
        destruct (L <? i + (Z.of_nat (length l) + 1)) eqn:E4;
        destruct (L mod 12 =? 0) eqn:E5; cbn [andb negb];
        rewrite ?Z.leb_le, ?Z.leb_gt, ?Z.ltb_lt, ?Z.ltb_ge, ?Z.eqb_eq,
          ?Z.eqb_neq in *;
        Z.to_euclidean_division_equations; lia.
Qed.

(** The entry at the last index is kept, and is the last one kept. *)
Lemma filter_from_last (d : A) (l : list A) :
  forall (i L : Z),
    0 <= i -> l <> [] -> L = i + Z.of_nat (length l) - 1 ->
    exists pre, filter_from (sampled L) i l = pre ++ [last l d].
Proof.
  induction l as [|x l IH]; intros i L Hi Hne HL; [congruence|].
  destruct l as [|y l].
  - cbn [filter_from last]. cbn [length] in HL.
    assert (Es : sampled L x i = true).
    { apply sampled_true; [exact Hi|]. right. lia. }
    rewrite Es. exists []. reflexivity.
  - destruct (IH (i + 1) L ltac:(lia) ltac:(discriminate)
                ltac:(cbn [length] in *; lia)) as [pre Hpre].
    change (last (x :: y :: l) d) with (last (y :: l) d).
    change (filter_from (sampled L) i (x :: y :: l))
      with (if sampled L x i
            then x :: filter_from (sampled L) (i + 1) (y :: l)
            else filter_from (sampled L) (i + 1) (y :: l)).
    rewrite Hpre. destruct (sampled L x i).
    + exists (x :: pre). reflexivity.
    + exists pre. reflexivity.
Qed.

End ChartSample.

(** X10. The balance chart of a schedule of [12 t] entries, [t >= 1], has
    [t + 1] points: it starts at the first entry of the schedule, keeps
    one entry a year, and ends at the last entry of the schedule. *)
Theorem areaChartData_points (schedule : list ScheduleEntry) (t : Z)
  (d : ScheduleEntry) :
  1 <= t -> Z.of_nat (length schedule) = 12 * t ->
  Z.of_nat (length (areaChartData schedule)) = t + 1
  /\ hd_error (areaChartData schedule) = hd_error schedule
  /\ last (areaChartData schedule) d = last schedule d.
Proof.
  intros Ht Hlen. unfold areaChartData, Array_filter.
  change (fun (_ : ScheduleEntry) (i : Z) =>
            (Z.rem i 12 =? 0) || (i =? Z.of_nat (length schedule) - 1))
    with (@sampled ScheduleEntry (Z.of_nat (length schedule) - 1)).
  split; [|split].
  - rewrite filter_from_length by lia. rewrite Hlen.
    replace (0 + 12 * t + 11) with (11 + t * 12) by lia.
    rewrite Z.div_add by lia. change ((0 + 11) / 12) with 0.
    change (11 / 12) with 0.
    assert (E1 : (0 <=? 12 * t - 1) = true) by (apply Z.leb_le; lia).
    assert (E2 : (12 * t - 1 <? 0 + 12 * t) = true) by (apply Z.ltb_lt; lia).
    assert (E3 : ((12 * t - 1) mod 12 =? 0) = false).
    { apply Z.eqb_neq. Z.to_euclidean_division_equations. lia. }
    rewrite E1, E2, E3. cbn [andb negb]. lia.
  - destruct schedule as [|x rest]; [reflexivity|].
    cbn [filter_from hd_error].
    change (sampled (Z.of_nat (length (x :: rest)) - 1) x 0)
      with (true || (0 =? Z.of_nat (length (x :: rest)) - 1)).
    reflexivity.
  - destruct (filter_from_last ScheduleEntry d schedule 0
                (Z.of_nat (length schedule) - 1)) as [pre Hpre];
      [lia| |lia|].
    + intros ->. cbn [length] in Hlen. lia.
    + rewrite Hpre. apply last_last.
Qed.

Lemma areaChartData_points_witness :
  (1 <= 1
   /\ Z.of_nat (length (fst (generateSchedule (fixed_clock 2026 10)
                               (of_Z 5000) (of_Z 25) 1 (of_Z 475))))
      = 12 * 1)
  /\ Z.of_nat (length (areaChartData
                         (fst (generateSchedule (fixed_clock 2026 10)
                                 (of_Z 5000) (of_Z 25) 1 (of_Z 475)))))
     = 1 + 1.
Proof.
  split.
  - split; [lia|reflexivity].
  - apply (areaChartData_points
             (fst (generateSchedule (fixed_clock 2026 10)
                     (of_Z 5000) (of_Z 25) 1 (of_Z 475)))
             1 (mkScheduleEntry 0 0 NaN NaN NaN NaN));
      [lia|reflexivity].
Defined.

Lemma rowKey_gap (clock : Clock) (p r : number) (t : Z) (e : number)
  (k : nat) (a b : ScheduleEntry) :
  nth_error (fst (generateSchedule clock p r t e)) k = Some a ->
  nth_error (fst (generateSchedule clock p r t e)) (k + 11) = Some b ->
  2 <= month a -> rowKey a = rowKey b.
Proof.
  intros Ha Hb.
  apply generateSchedule_nth_inv in Ha. destruct Ha as [_ ->].
  apply generateSchedule_nth_inv in Hb. destruct Hb as [_ ->].
  unfold rowKey.
  cbn [schedule_step fst month year make getMonth getFullYear].
  rewrite Nat2Z.inj_add.
  set (m0 := getMonth (reading clock (S (reads clock)))).
  set (yr := if (0 <=? getFullYear (reading clock (reads clock)))
                && (getFullYear (reading clock (reads clock)) <=? 99)
             then 1900 + getFullYear (reading clock (reads clock))
             else getFullYear (reading clock (reads clock))).
  replace (m0 + (1 + (Z.of_nat k + Z.of_nat 11)))
    with (m0 + (1 + Z.of_nat k) + 11) by lia.
  set (A := m0 + (1 + Z.of_nat k)).
  clearbody A yr. clear.
  Z.to_euclidean_division_equations. lia.
Qed.



(** X12. The rows of the table do not have distinct keys: for a tenure of
    2 years or more, or of 1 year when the clock is not in December, two
    rows 11 months apart share the key month plus year. *)
Theorem App_table_keys_repeat (clock : Clock) (amount rate : number)
  (tenure : Z) :
  0 <= getMonth (reading clock (S (reads clock))) <= 11 ->
  1 <= tenure ->
  2 <= tenure \/ getMonth (reading clock (S (reads clock))) <> 11 ->
  ~ NoDup (map rowKey (App_schedule clock amount rate tenure)).
Proof.
  intros Hm Ht Hc Hnd. unfold App_schedule in Hnd.
  set (pay := monthlyEmi (App_summary amount rate tenure)) in *.
  set (k := if getMonth (reading clock (S (reads clock))) =? 11
            then 1%nat else 0%nat).
  assert (Hk : (k + 11 < Z.to_nat (tenure * 12))%nat).
  { unfold k. destruct (getMonth _ =? 11) eqn:E.
    - apply Z.eqb_eq in E. lia.
    - lia. }
  pose proof (generateSchedule_nth clock amount rate tenure pay k
                ltac:(lia)) as Ha.
  pose proof (generateSchedule_nth clock amount rate tenure pay (k + 11)
                Hk) as Hb.
  assert (Hmonth :
    2 <= month (fst (schedule_step (monthly_rate rate) pay
                       (getFullYear (reading clock (reads clock)))
                       (getMonth (reading clock (S (reads clock))))
                       (1 + Z.of_nat k)
                       (balance_at (monthly_rate rate) pay amount k)))).
  { cbn [schedule_step fst month make getMonth]. unfold k.
    destruct (getMonth (reading clock (S (reads clock))) =? 11) eqn:E.
    - apply Z.eqb_eq in E. rewrite E. reflexivity.
    - apply Z.eqb_neq in E. change (Z.of_nat 0) with 0.
      Z.to_euclidean_division_equations. lia. }
  pose proof (rowKey_gap _ _ _ _ _ _ _ _ Ha Hb Hmonth) as Hkey.
  assert (Hlen : (k < length (map rowKey
                                (fst (generateSchedule clock amount rate
                                        tenure pay))))%nat).
  { rewrite length_map, generateSchedule_length. lia. }
  pose proof (proj1 (NoDup_nth_error _) Hnd k (k + 11)%nat Hlen) as Hinj.
  rewrite !nth_error_map, Ha, Hb in Hinj. cbn [option_map] in Hinj.
  specialize (Hinj ltac:(congruence)). lia.
Qed.

Lemma App_table_keys_repeat_witness :
  (0 <= 10 <= 11 /\ 1 <= 1 /\ (2 <= 1 \/ 10 <> 11))
  /\ ~ NoDup (map rowKey (App_schedule (fixed_clock 2026 10)
                            (of_Z 50000) (ratio 75 10) 1)).
Proof.
  split.
  - split; [lia|split; [lia|right; lia]].
  - apply (App_table_keys_repeat (fixed_clock 2026 10)
             (of_Z 50000) (ratio 75 10) 1);
      [cbn; lia|lia|right; cbn; lia].
Defined.

(** * Rounding to binary64 *)

Module Rounding.

Import B64.

Lemma pow2_pos (z : Z) : (0 < pow2 z)%Q.
Proof. apply Qpower_0_lt. reflexivity. Qed.

Lemma pow2_add (a b : Z) : pow2 (a + b) == (pow2 a * pow2 b)%Q.
Proof. apply Qpower_plus. discriminate. Qed.

Lemma pow2_le (a b : Z) : a <= b -> (pow2 a <= pow2 b)%Q.
Proof. intros H. apply Qpower_le_compat_l; [exact H|discriminate]. Qed.

Lemma pow2_lt (a b : Z) : a < b -> (pow2 a < pow2 b)%Q.
Proof. intros H. apply Qpower_lt_compat_l; [exact H|reflexivity]. Qed.

Lemma pow2_lt_inv (a b : Z) : (pow2 a < pow2 b)%Q -> a < b.
Proof.
  intros H. destruct (Z.lt_ge_cases a b) as [|Hge]; [assumption|].
  pose proof (pow2_le b a Hge). lra.
Qed.

Lemma pow2_inject (k : Z) : 0 <= k -> inject_Z (2 ^ k) == pow2 k.
Proof. intros H. apply (Zpower_Qpower 2 k H). Qed.

Lemma pow2_succ (a : Z) : pow2 (a + 1) == (2 * pow2 a)%Q.
Proof. rewrite pow2_add. change (pow2 1) with 2%Q. ring. Qed.

Lemma pow2_sub (a b : Z) : pow2 (a - b) == (pow2 a / pow2 b)%Q.
Proof.
  pose proof (pow2_pos b).
  setoid_replace (pow2 a) with (pow2 (a - b) * pow2 b)%Q.
  - field. lra.
  - rewrite <- pow2_add. replace (a - b + b) with a by lia. reflexivity.
Qed.

Lemma ilog2_spec (a : Q) :
  (0 < a)%Q -> (pow2 (ilog2 a) <= a)%Q /\ (a < pow2 (ilog2 a + 1))%Q.
Proof.
  intros Ha. destruct a as [n d]. unfold ilog2. cbn [Qnum Qden].
  assert (Hn : 0 < n).
  { unfold Qlt in Ha. cbn in Ha. lia. }
  pose proof (Z.log2_spec n Hn) as [Hn1 Hn2].
  pose proof (Z.log2_spec (Z.pos d) ltac:(lia)) as [Hd1 Hd2].
  pose proof (Z.log2_nonneg n) as Hln.
  pose proof (Z.log2_nonneg (Z.pos d)) as Hld.
  set (ln := Z.log2 n) in *. set (ld := Z.log2 (Z.pos d)) in *.
  assert (Hq : n # d == inject_Z n / inject_Z (Z.pos d)) by apply Qmake_Qdiv.
  assert (Hdpos : (0 < inject_Z (Z.pos d))%Q).
  { change 0%Q with (inject_Z 0). rewrite <- Zlt_Qlt. lia. }
  assert (Hn1q : (pow2 ln <= inject_Z n)%Q).
  { rewrite <- pow2_inject by lia. rewrite <- Zle_Qle. exact Hn1. }
  assert (Hn2q : (inject_Z n < pow2 (ln + 1))%Q).
  { rewrite <- pow2_inject by lia. rewrite <- Zlt_Qlt. unfold Z.succ in Hn2. exact Hn2. }
  assert (Hd1q : (pow2 ld <= inject_Z (Z.pos d))%Q).
  { rewrite <- pow2_inject by lia. rewrite <- Zle_Qle. exact Hd1. }
  assert (Hd2q : (inject_Z (Z.pos d) < pow2 (ld + 1))%Q).
  { rewrite <- pow2_inject by lia. rewrite <- Zlt_Qlt. unfold Z.succ in Hd2. exact Hd2. }
  assert (Hup : (n # d < pow2 (ln - ld + 1))%Q).
  { rewrite Hq. apply Qlt_shift_div_r; [exact Hdpos|].
    apply Qlt_le_trans with (pow2 (ln + 1)); [exact Hn2q|].
    replace (ln + 1) with ((ln - ld + 1) + ld) by lia.
    rewrite pow2_add. apply Qmult_le_l; [apply pow2_pos|exact Hd1q]. }
  assert (Hlo : (pow2 (ln - ld - 1) <= n # d)%Q).
  { rewrite Hq. apply Qle_shift_div_l; [exact Hdpos|].
    apply Qle_trans with (pow2 ln); [|exact Hn1q].
    replace ln with ((ln - ld - 1) + (ld + 1)) at 2 by lia.
    rewrite pow2_add. apply Qmult_le_l; [apply pow2_pos|]. lra. }
  destruct (Qle_bool (pow2 (ln - ld)) (n # d)) eqn:E.
  - apply Qle_bool_iff in E. split; [exact E|exact Hup].
  - split; [exact Hlo|].
    replace (ln - ld - 1 + 1) with (ln - ld) by lia.
    apply Qnot_le_lt. intros H. apply Qle_bool_iff in H. congruence.
Qed.

Lemma ilog2_unique (a : Q) (E : Z) :
  (pow2 E <= a)%Q -> (a < pow2 (E + 1))%Q -> ilog2 a = E.
Proof.
  intros H1 H2. pose proof (pow2_pos E) as HE.
  destruct (ilog2_spec a ltac:(lra)) as [S1 S2].
  assert (A : ilog2 a < E + 1) by (apply pow2_lt_inv; lra).
  assert (B : E < ilog2 a + 1) by (apply pow2_lt_inv; lra).
  lia.
Qed.

Lemma ilog2_mono (a b : Q) : (0 < a)%Q -> (a <= b)%Q -> ilog2 a <= ilog2 b.
Proof.
  intros Ha Hab.
  destruct (ilog2_spec a Ha) as [A1 A2].
  destruct (ilog2_spec b ltac:(lra)) as [B1 B2].
  assert (ilog2 a < ilog2 b + 1) by (apply pow2_lt_inv; lra). lia.
Qed.

Lemma ilog2_eqv (a b : Q) : (0 < a)%Q -> a == b -> ilog2 a = ilog2 b.
Proof.
  intros Ha Hab. destruct (ilog2_spec b ltac:(lra)) as [B1 B2].
  apply ilog2_unique; lra.
Qed.

Lemma floor_bounds (s : Q) :
  (inject_Z (Qfloor s) <= s)%Q /\ (s < inject_Z (Qfloor s) + 1)%Q.
Proof.
  split; [apply Qfloor_le|].
  pose proof (Qlt_floor s) as H. rewrite inject_Z_plus in H. exact H.
Qed.

Lemma floor_unique (s : Q) (k : Z) :
  (inject_Z k <= s)%Q -> (s < inject_Z k + 1)%Q -> Qfloor s = k.
Proof.
  intros H1 H2. destruct (floor_bounds s) as [F1 F2].
  assert (A : k < Qfloor s + 1).
  { rewrite Zlt_Qlt, inject_Z_plus. change (inject_Z 1) with 1%Q. lra. }
  assert (B : Qfloor s < k + 1).
  { rewrite Zlt_Qlt, inject_Z_plus. change (inject_Z 1) with 1%Q. lra. }
  lia.
Qed.

Lemma rne_cases (s : Q) :
  ((s - inject_Z (Qfloor s) < 1 # 2)%Q /\ rne s = Qfloor s)
  \/ (s - inject_Z (Qfloor s) == 1 # 2
      /\ rne s = if Z.even (Qfloor s) then Qfloor s else Qfloor s + 1)
  \/ ((1 # 2 < s - inject_Z (Qfloor s))%Q /\ rne s = Qfloor s + 1).
Proof.
  unfold rne.
  destruct (s - inject_Z (Qfloor s) ?= 1 # 2)%Q eqn:E.
  - right. left. split; [apply Qeq_alt; exact E|reflexivity].
  - left. split; [apply Qlt_alt; exact E|reflexivity].
  - right. right. split; [apply Qgt_alt; exact E|reflexivity].
Qed.

Lemma rne_range (s : Q) : Qfloor s <= rne s <= Qfloor s + 1.
Proof.
  destruct (rne_cases s) as [[_ ->]|[[_ ->]|[_ ->]]]; try lia.
  destruct (Z.even (Qfloor s)); lia.
Qed.

Lemma rne_mono (s s' : Q) : (s <= s')%Q -> rne s <= rne s'.
Proof.
  intros H. pose proof (Qfloor_resp_le s s' H) as Hk.
  pose proof (rne_range s). pose proof (rne_range s').
  destruct (Z.eq_dec (Qfloor s) (Qfloor s')) as [E|NE]; [|lia].
  destruct (rne_cases s) as [[A ->]|[[A ->]|[A ->]]];
    destruct (rne_cases s') as [[B ->]|[[B ->]|[B ->]]];
    rewrite <- ?E in *; try lia; try (destruct (Z.even (Qfloor s)); lia);
    exfalso; lra.
Qed.

Lemma rne_int (k : Z) : rne (inject_Z k) = k.
Proof.
  destruct (rne_cases (inject_Z k)) as [[A ->]|[[A _]|[A _]]];
    rewrite Qfloor_Z in *; [reflexivity| |]; exfalso.
  - assert (inject_Z k - inject_Z k == 0) by ring. rewrite H in A. discriminate.
  - assert (inject_Z k - inject_Z k == 0) by ring. rewrite H in A. discriminate.
Qed.

Lemma rne_eqv (s s' : Q) : s == s' -> rne s = rne s'.
Proof.
  intros H. apply Z.le_antisymm; apply rne_mono; lra.
Qed.

Lemma rne_half (s : Q) :
  (inject_Z (rne s) - s <= 1 # 2)%Q /\ (s - inject_Z (rne s) <= 1 # 2)%Q.
Proof.
  destruct (floor_bounds s) as [F1 F2].
  destruct (rne_cases s) as [[A ->]|[[A ->]|[A ->]]].
  - lra.
  - destruct (Z.even (Qfloor s)); rewrite ?inject_Z_plus;
      change (inject_Z 1) with 1%Q; lra.
  - rewrite inject_Z_plus. change (inject_Z 1) with 1%Q. lra.
Qed.

Lemma rne_nonneg (s : Q) : (0 <= s)%Q -> 0 <= rne s.
Proof.
  intros H. rewrite <- (rne_int 0). apply rne_mono. exact H.
Qed.

Lemma quantum_binade (a : Q) : quantum a = binade a - 52.
Proof. reflexivity. Qed.

Lemma binade_upper (a : Q) : (0 < a)%Q -> (a < pow2 (binade a + 1))%Q.
Proof.
  intros Ha. destruct (ilog2_spec a Ha) as [_ H].
  apply Qlt_le_trans with (pow2 (ilog2 a + 1)); [exact H|].
  apply pow2_le. unfold binade. lia.
Qed.

Lemma binade_lower (a : Q) :
  (0 < a)%Q -> -1022 <= ilog2 a -> (pow2 (binade a) <= a)%Q.
Proof.
  intros Ha Hn. destruct (ilog2_spec a Ha) as [H _].
  unfold binade. rewrite Z.max_l by lia. exact H.
Qed.

Lemma binade_mono (a b : Q) : (0 < a)%Q -> (a <= b)%Q -> binade a <= binade b.
Proof.
  intros Ha Hab. pose proof (ilog2_mono a b Ha Hab). unfold binade. lia.
Qed.

Lemma scaled_upper (a : Q) :
  (0 < a)%Q -> (a / pow2 (quantum a) < inject_Z (2 ^ 53))%Q.
Proof.
  intros Ha. pose proof (pow2_pos (quantum a)) as Hq.
  apply Qlt_shift_div_r; [exact Hq|].
  rewrite pow2_inject by lia. rewrite <- pow2_add.
  rewrite quantum_binade.
  replace (53 + (binade a - 52)) with (binade a + 1) by lia.
  apply binade_upper. exact Ha.
Qed.

Lemma scaled_lower (a : Q) :
  (0 < a)%Q -> -1022 <= ilog2 a ->
  (inject_Z (2 ^ 52) <= a / pow2 (quantum a))%Q.
Proof.
  intros Ha Hn. pose proof (pow2_pos (quantum a)) as Hq.
  apply Qle_shift_div_l; [exact Hq|].
  rewrite pow2_inject by lia. rewrite <- pow2_add.
  rewrite quantum_binade.
  replace (52 + (binade a - 52)) with (binade a) by lia.
  apply binade_lower; assumption.
Qed.

Lemma rne_scaled_upper (a : Q) :
  (0 < a)%Q -> rne (a / pow2 (quantum a)) <= 2 ^ 53.
Proof.
  intros Ha. rewrite <- (rne_int (2 ^ 53)). apply rne_mono.
  apply Qlt_le_weak. apply scaled_upper. exact Ha.
Qed.

Lemma rne_scaled_lower (a : Q) :
  (0 < a)%Q -> -1022 <= ilog2 a -> 2 ^ 52 <= rne (a / pow2 (quantum a)).
Proof.
  intros Ha Hn. rewrite <- (rne_int (2 ^ 52)) at 1. apply rne_mono.
  apply scaled_lower; assumption.
Qed.

Lemma rne_scaled_nonneg (a : Q) :
  (0 < a)%Q -> 0 <= rne (a / pow2 (quantum a)).
Proof.
  intros Ha. apply rne_nonneg. pose proof (pow2_pos (quantum a)).
  apply Qle_shift_div_l; [assumption|]. lra.
Qed.

Lemma round_pos_nonneg (a : Q) : (0 < a)%Q -> (0 <= round_pos a)%Q.
Proof.
  intros Ha. unfold round_pos. apply Qmult_le_0_compat.
  - change 0%Q with (inject_Z 0). rewrite <- Zle_Qle.
    apply rne_scaled_nonneg. exact Ha.
  - apply Qlt_le_weak. apply pow2_pos.
Qed.

Lemma round_pos_upper (a : Q) :
  (0 < a)%Q -> (round_pos a <= pow2 (binade a + 1))%Q.
Proof.
  intros Ha. unfold round_pos.
  replace (binade a + 1) with (53 + quantum a)
    by (rewrite quantum_binade; lia).
  rewrite pow2_add. apply Qmult_le_compat_r.
  - rewrite <- (pow2_inject 53) by lia. rewrite <- Zle_Qle.
    apply rne_scaled_upper. exact Ha.
  - apply Qlt_le_weak. apply pow2_pos.
Qed.

Lemma round_pos_lower (a : Q) :
  (0 < a)%Q -> -1022 <= ilog2 a -> (pow2 (binade a) <= round_pos a)%Q.
Proof.
  intros Ha Hn. unfold round_pos.
  replace (binade a) with (52 + quantum a) at 1
    by (rewrite quantum_binade; lia).
  rewrite pow2_add. apply Qmult_le_compat_r.
  - rewrite <- (pow2_inject 52) by lia. rewrite <- Zle_Qle.
    apply rne_scaled_lower; assumption.
  - apply Qlt_le_weak. apply pow2_pos.
Qed.

Lemma round_pos_mono (a b : Q) :
  (0 < a)%Q -> (a <= b)%Q -> (round_pos a <= round_pos b)%Q.
Proof.
  intros Ha Hab. assert (Hb : (0 < b)%Q) by lra.
  pose proof (binade_mono a b Ha Hab) as HB.
  destruct (Z.eq_dec (binade a) (binade b)) as [E|NE].
  - unfold round_pos. rewrite !quantum_binade, E.
    pose proof (pow2_pos (binade b - 52)) as Hq.
    apply Qmult_le_compat_r; [|lra].
    rewrite <- Zle_Qle. apply rne_mono.
    apply Qmult_le_compat_r; [exact Hab|].
    apply Qlt_le_weak. apply Qinv_lt_0_compat. exact Hq.
  - assert (Hn : -1022 <= ilog2 b) by (unfold binade in *; lia).
    apply Qle_trans with (pow2 (binade a + 1)); [apply round_pos_upper; exact Ha|].
    apply Qle_trans with (pow2 (binade b)); [apply pow2_le; lia|].
    apply round_pos_lower; assumption.
Qed.

Lemma round_pos_eqv (a b : Q) :
  (0 < a)%Q -> a == b -> round_pos a == round_pos b.
Proof.
  intros Ha Hab. apply Qle_antisym; apply round_pos_mono; lra.
Qed.

(** A positive value [K * 2^q] in canonical form: a 53-bit mantissa at a
    normal exponent, or a shorter one at the least exponent. *)
Lemma quantum_canonical (K q : Z) :
  0 < K < 2 ^ 53 -> -1074 <= q -> (2 ^ 52 <= K \/ q = -1074) ->
  quantum (inject_Z K * pow2 q) = q.
Proof.
  intros HK Hq Hc.
  assert (Hpos : (0 < inject_Z K * pow2 q)%Q).
  { apply Qmult_lt_0_compat; [|apply pow2_pos].
    change 0%Q with (inject_Z 0). rewrite <- Zlt_Qlt. lia. }
  assert (Hup : (inject_Z K * pow2 q < pow2 (q + 53))%Q).
  { rewrite Z.add_comm, pow2_add. apply Qmult_lt_compat_r; [apply pow2_pos|].
    rewrite <- (pow2_inject 53) by lia. rewrite <- Zlt_Qlt. lia. }
  rewrite quantum_binade. unfold binade.
  destruct (Z_le_gt_dec (2 ^ 52) K) as [Hn|Hs].
  - assert (Hlo : (pow2 (q + 52) <= inject_Z K * pow2 q)%Q).
    { rewrite Z.add_comm, pow2_add.
      apply Qmult_le_compat_r; [|apply Qlt_le_weak, pow2_pos].
      rewrite <- (pow2_inject 52) by lia. rewrite <- Zle_Qle. lia. }
    rewrite (ilog2_unique _ (q + 52)); [lia|exact Hlo|].
    replace (q + 52 + 1) with (q + 53) by lia. exact Hup.
  - assert (q = -1074) by (destruct Hc; lia). subst q.
    destruct (ilog2_spec _ Hpos) as [S1 _].
    assert (Hlt : (inject_Z K * pow2 (-1074) < pow2 (-1022))%Q).
    { replace (-1022) with (52 + -1074) by lia. rewrite pow2_add.
      apply Qmult_lt_compat_r; [apply pow2_pos|].
      rewrite <- (pow2_inject 52) by lia. rewrite <- Zlt_Qlt. lia. }
    assert (ilog2 (inject_Z K * pow2 (-1074)) < -1022)
      by (apply pow2_lt_inv; lra).
    lia.
Qed.

Lemma round_pos_canonical (K q : Z) :
  0 < K < 2 ^ 53 -> -1074 <= q -> (2 ^ 52 <= K \/ q = -1074) ->
  round_pos (inject_Z K * pow2 q) == inject_Z K * pow2 q.
Proof.
  intros HK Hq Hc. unfold round_pos.
  rewrite (quantum_canonical K q HK Hq Hc).
  pose proof (pow2_pos q) as Hp.
  assert (E : inject_Z K * pow2 q / pow2 q == inject_Z K) by (field; lra).
  rewrite (rne_eqv _ _ E), rne_int. reflexivity.
Qed.

Lemma round_pos_idem (a : Q) :
  (0 < a)%Q -> (0 < round_pos a)%Q ->
  round_pos (round_pos a) == round_pos a.
Proof.
  intros Ha Hm.
  pose proof (rne_scaled_upper a Ha) as HU.
  pose proof (rne_scaled_nonneg a Ha) as HN.
  set (K := rne (a / pow2 (quantum a))) in *.
  assert (HK : 0 < K).
  { destruct (Z.eq_dec K 0) as [E|]; [|lia].
    unfold round_pos in Hm. fold K in Hm. rewrite E in Hm.
    rewrite Qmult_0_l in Hm. discriminate. }
  assert (Hq : -1074 <= quantum a) by (unfold quantum; lia).
  assert (Hform : round_pos a == inject_Z K * pow2 (quantum a)) by reflexivity.
  destruct (Z.eq_dec K (2 ^ 53)) as [E|NE].
  - assert (E2 : round_pos a == inject_Z (2 ^ 52) * pow2 (quantum a + 1)).
    { rewrite Hform, E, pow2_succ.
      change (inject_Z (2 ^ 53)) with (2 * inject_Z (2 ^ 52))%Q. ring. }
    rewrite (round_pos_eqv _ _ Hm E2).
    rewrite round_pos_canonical; [symmetry; exact E2|lia|lia|left; lia].
  - rewrite (round_pos_eqv _ _ Hm Hform).
    apply round_pos_canonical; [lia|exact Hq|].
    destruct (Z_le_gt_dec (-1022) (ilog2 a)) as [Hn|Hs].
    + left. apply rne_scaled_lower; assumption.
    + right. unfold quantum. lia.
Qed.

Lemma round_pos_error (a : Q) :
  (0 < a)%Q ->
  (Qabs (round_pos a - a) <= (1 # 2) * pow2 (quantum a))%Q.
Proof.
  intros Ha. pose proof (pow2_pos (quantum a)) as Hq.
  destruct (rne_half (a / pow2 (quantum a))) as [H1 H2].
  set (K := inject_Z (rne (a / pow2 (quantum a)))) in *.
  assert (E : round_pos a - a == (K - a / pow2 (quantum a)) * pow2 (quantum a)).
  { unfold round_pos. fold K. field. lra. }
  rewrite E, Qabs_Qmult, (Qabs_pos (pow2 _)) by lra.
  apply Qmult_le_compat_r; [|lra].
  apply Qabs_Qle_condition. lra.
Qed.

Lemma quantum_rel (a : Q) :
  (0 < a)%Q ->
  (pow2 (quantum a) <= pow2 (-52) * a + pow2 (-1074))%Q.
Proof.
  intros Ha. pose proof (pow2_pos (-1074)). pose proof (pow2_pos (-52)).
  destruct (Z_le_gt_dec (-1022) (ilog2 a)) as [Hn|Hs].
  - pose proof (binade_lower a Ha Hn) as HB.
    rewrite quantum_binade.
    replace (binade a - 52) with (-52 + binade a) by lia. rewrite pow2_add.
    assert ((pow2 (-52) * pow2 (binade a) <= pow2 (-52) * a)%Q)
      by (apply Qmult_le_l; assumption).
    lra.
  - unfold quantum. rewrite Z.max_r by lia. change (-1022 - 52) with (-1074).
    assert ((0 <= pow2 (-52) * a)%Q) by (apply Qmult_le_0_compat; lra).
    lra.
Qed.

Lemma round64_zero (x : Q) : x == 0 -> round64 x = Fin 0.
Proof.
  intros H. unfold round64.
  destruct (x ?= 0)%Q eqn:E; [reflexivity| |].
  - apply Qlt_alt in E. lra.
  - apply Qgt_alt in E. lra.
Qed.

Lemma round64_pos (x : Q) :
  (0 < x)%Q ->
  round64 x = if Qle_bool (pow2 1024) (round_pos x) then PosInf
              else Fin (Qred (round_pos x)).
Proof.
  intros H. unfold round64.
  destruct (x ?= 0)%Q eqn:E; [| |reflexivity].
  - apply Qeq_alt in E. lra.
  - apply Qlt_alt in E. lra.
Qed.

Lemma round64_neg (x : Q) :
  (x < 0)%Q ->
  round64 x = if Qle_bool (pow2 1024) (round_pos (- x)) then NegInf
              else Fin (Qred (- round_pos (- x))).
Proof.
  intros H. unfold round64.
  destruct (x ?= 0)%Q eqn:E; [|reflexivity|].
  - apply Qeq_alt in E. lra.
  - apply Qgt_alt in E. lra.
Qed.

Lemma round64_not_nan (x : Q) : round64 x <> NaN.
Proof.
  destruct (Q_dec x 0) as [[H|H]|H].
  - rewrite (round64_neg x H). destruct (Qle_bool _ _); discriminate.
  - rewrite (round64_pos x H). destruct (Qle_bool _ _); discriminate.
  - rewrite (round64_zero x H). discriminate.
Qed.

Lemma round64_nonneg (x : Q) : (0 <= x)%Q -> num_le (Fin 0) (round64 x).
Proof.
  intros H. destruct (Qle_lt_or_eq _ _ H) as [Hp|Hz].
  - rewrite (round64_pos x Hp). destruct (Qle_bool _ _); [reflexivity|].
    unfold num_le, num_leb. apply Qle_bool_iff. rewrite Qred_correct.
    apply round_pos_nonneg. exact Hp.
  - rewrite (round64_zero x) by (symmetry; exact Hz). reflexivity.
Qed.

Lemma round64_nonpos (x : Q) : (x <= 0)%Q -> num_le (round64 x) (Fin 0).
Proof.
  intros H. destruct (Qle_lt_or_eq _ _ H) as [Hp|Hz].
  - rewrite (round64_neg x Hp). destruct (Qle_bool _ _); [reflexivity|].
    unfold num_le, num_leb. apply Qle_bool_iff. rewrite Qred_correct.
    pose proof (round_pos_nonneg (- x) ltac:(lra)). lra.
  - rewrite (round64_zero x Hz). reflexivity.
Qed.

Lemma num_le_trans (a b c : number) : num_le a b -> num_le b c -> num_le a c.
Proof.
  unfold num_le. destruct a, b, c; cbn; try congruence.
  rewrite !Qle_bool_iff. apply Qle_trans.
Qed.

Lemma round64_mono (x y : Q) :
  (x <= y)%Q -> num_le (round64 x) (round64 y).
Proof.
  intros H.
  destruct (Q_dec x 0) as [[Hx|Hx]|Hx].
  - destruct (Qlt_le_dec y 0) as [Hy|Hy].
    + rewrite (round64_neg x Hx), (round64_neg y Hy).
      pose proof (round_pos_mono (- y) (- x) ltac:(lra) ltac:(lra)) as Hm.
      destruct (Qle_bool (pow2 1024) (round_pos (- x))) eqn:Ex.
      * unfold num_le.
        destruct (Qle_bool (pow2 1024) (round_pos (- y))); reflexivity.
      * destruct (Qle_bool (pow2 1024) (round_pos (- y))) eqn:Ey.
        { apply Qle_bool_iff in Ey.
          assert (Qle_bool (pow2 1024) (round_pos (- x)) = true)
            by (apply Qle_bool_iff; lra).
          congruence. }
        unfold num_le, num_leb. apply Qle_bool_iff.
        rewrite !Qred_correct. lra.
    + apply num_le_trans with (Fin 0);
        [apply round64_nonpos; lra|apply round64_nonneg; exact Hy].
  - rewrite (round64_pos x Hx), (round64_pos y ltac:(lra)).
    pose proof (round_pos_mono x y Hx H) as Hm.
    destruct (Qle_bool (pow2 1024) (round_pos y)) eqn:Ey.
    + unfold num_le.
      destruct (Qle_bool (pow2 1024) (round_pos x)); reflexivity.
    + destruct (Qle_bool (pow2 1024) (round_pos x)) eqn:Ex.
      { apply Qle_bool_iff in Ex.
        assert (Qle_bool (pow2 1024) (round_pos y) = true)
          by (apply Qle_bool_iff; lra).
        congruence. }
      unfold num_le, num_leb. apply Qle_bool_iff.
      rewrite !Qred_correct. exact Hm.
  - rewrite (round64_zero x Hx). apply round64_nonneg. lra.
Qed.

Lemma round64_eqv (x y : Q) : x == y -> round64 x = round64 y.
Proof.
  intros H.
  destruct (Q_dec x 0) as [[Hx|Hx]|Hx].
  - rewrite (round64_neg x Hx), (round64_neg y ltac:(lra)).
    assert (E : round_pos (- x) == round_pos (- y))
      by (apply round_pos_eqv; lra).
    assert (B : Qle_bool (pow2 1024) (round_pos (- x))
                = Qle_bool (pow2 1024) (round_pos (- y))).
    { apply eq_true_iff_eq. rewrite !Qle_bool_iff, E. reflexivity. }
    rewrite B. destruct (Qle_bool (pow2 1024) (round_pos (- y)));
      [reflexivity|].
    f_equal. apply Qred_complete. rewrite E. reflexivity.
  - rewrite (round64_pos x Hx), (round64_pos y ltac:(lra)).
    assert (E : round_pos x == round_pos y) by (apply round_pos_eqv; lra).
    assert (B : Qle_bool (pow2 1024) (round_pos x)
                = Qle_bool (pow2 1024) (round_pos y)).
    { apply eq_true_iff_eq. rewrite !Qle_bool_iff, E. reflexivity. }
    rewrite B. destruct (Qle_bool (pow2 1024) (round_pos y));
      [reflexivity|].
    f_equal. apply Qred_complete. exact E.
  - rewrite (round64_zero x Hx), (round64_zero y) by lra. reflexivity.
Qed.

Lemma Qred_zero (m : Q) : m == 0 -> Qred m = 0%Q.
Proof. intros H. apply (Qred_complete m 0 H). Qed.

Lemma round64_idem (x m : Q) : round64 x = Fin m -> round64 m = Fin m.
Proof.
  intros H.
  assert (Key : forall a, (0 < a)%Q ->
            Qle_bool (pow2 1024) (round_pos a) = false ->
            round64 (Qred (round_pos a)) = Fin (Qred (round_pos a))
            /\ round64 (Qred (- round_pos a)) = Fin (Qred (- round_pos a))).
  { intros a Ha E.
    pose proof (round_pos_nonneg a Ha) as Hn.
    pose proof (Qred_correct (round_pos a)) as Hc.
    pose proof (Qred_correct (- round_pos a)) as Hc'.
    destruct (Qle_lt_or_eq _ _ Hn) as [Hp|Hz].
    - assert (E2 : round_pos (Qred (round_pos a)) == round_pos a).
      { rewrite <- (round_pos_idem a Ha Hp) at 2.
        apply round_pos_eqv; lra. }
      assert (E3 : round_pos (- Qred (- round_pos a)) == round_pos a).
      { rewrite <- (round_pos_idem a Ha Hp) at 2.
        apply round_pos_eqv; lra. }
      split.
      + rewrite round64_pos by lra.
        assert (B : Qle_bool (pow2 1024) (round_pos (Qred (round_pos a)))
                    = false).
        { rewrite <- E. apply eq_true_iff_eq. rewrite !Qle_bool_iff, E2.
          reflexivity. }
        rewrite B. f_equal. apply Qred_complete. exact E2.
      + rewrite round64_neg by lra.
        assert (B : Qle_bool (pow2 1024)
                      (round_pos (- Qred (- round_pos a))) = false).
        { rewrite <- E. apply eq_true_iff_eq. rewrite !Qle_bool_iff, E3.
          reflexivity. }
        rewrite B. f_equal. apply Qred_complete. rewrite E3. reflexivity.
    - split.
      + rewrite round64_zero by lra. f_equal. symmetry. apply Qred_zero. lra.
      + rewrite round64_zero by lra. f_equal. symmetry. apply Qred_zero. lra. }
  destruct (Q_dec x 0) as [[Hx|Hx]|Hx].
  - rewrite (round64_neg x Hx) in H.
    destruct (Qle_bool (pow2 1024) (round_pos (- x))) eqn:E; [discriminate|].
    injection H as <-. apply (Key (- x)%Q); [lra|exact E].
  - rewrite (round64_pos x Hx) in H.
    destruct (Qle_bool (pow2 1024) (round_pos x)) eqn:E; [discriminate|].
    injection H as <-. apply (Key x); [lra|exact E].
  - rewrite (round64_zero x Hx) in H. injection H as <-. reflexivity.
Qed.

Lemma rnd_idem (a : number) : rnd (rnd a) = rnd a.
Proof.
  destruct a as [x| | |]; try reflexivity. cbn [rnd].
  destruct (round64 x) as [m| | |] eqn:E; try reflexivity.
  cbn [rnd]. apply (round64_idem x m E).
Qed.

Lemma round64_error (x m : Q) :
  round64 x = Fin m ->
  (Qabs (m - x) <= pow2 (-53) * Qabs x + pow2 (-1075))%Q.
Proof.
  intros H. pose proof (pow2_pos (-53)) as H53. pose proof (pow2_pos (-1075)) as H75.
  assert (Half : forall a, (0 < a)%Q ->
            (Qabs (round_pos a - a) <= pow2 (-53) * a + pow2 (-1075))%Q).
  { intros a Ha. eapply Qle_trans; [apply round_pos_error; exact Ha|].
    pose proof (quantum_rel a Ha) as Hq.
    assert (E1 : pow2 (-52) == 2 * pow2 (-53)).
    { rewrite <- pow2_succ. reflexivity. }
    assert (E2 : pow2 (-1074) == 2 * pow2 (-1075)).
    { rewrite <- pow2_succ. reflexivity. }
    rewrite E1, E2 in Hq. lra. }
  destruct (Q_dec x 0) as [[Hx|Hx]|Hx].
  - rewrite (round64_neg x Hx) in H.
    destruct (Qle_bool _ _); [discriminate|].
    assert (Hm : Qred (- round_pos (- x)) = m) by congruence.
    assert (Hc : m == - round_pos (- x))
      by (rewrite <- Hm; exact (Qred_correct _)).
    clear Hm H.
    assert (Ha : pow2 (-53) * Qabs x == pow2 (-53) * - x)
      by (rewrite (Qabs_neg x) by lra; reflexivity).
    pose proof (Half (- x)%Q ltac:(lra)) as Hh.
    apply Qabs_Qle_condition in Hh. apply Qabs_Qle_condition. lra.
  - rewrite (round64_pos x Hx) in H.
    destruct (Qle_bool _ _); [discriminate|].
    assert (Hm : Qred (round_pos x) = m) by congruence.
    assert (Hc : m == round_pos x)
      by (rewrite <- Hm; exact (Qred_correct _)).
    clear Hm H.
    assert (Ha : pow2 (-53) * Qabs x == pow2 (-53) * x)
      by (rewrite (Qabs_pos x) by lra; reflexivity).
    pose proof (Half x Hx) as Hh.
    apply Qabs_Qle_condition in Hh. apply Qabs_Qle_condition. lra.
  - rewrite (round64_zero x Hx) in H. injection H as <-.
    pose proof (Qabs_nonneg x).
    assert ((0 <= pow2 (-53) * Qabs x)%Q) by (apply Qmult_le_0_compat; lra).
    apply Qabs_Qle_condition. lra.
Qed.

Lemma round64_int (z : Z) :
  Z.abs z < 2 ^ 53 -> round64 (inject_Z z) = Fin (inject_Z z).
Proof.
  intros Hz.
  assert (Key : forall k, 0 < k < 2 ^ 53 ->
            round_pos (inject_Z k) == inject_Z k).
  { intros k Hk.
    assert (Hpos : (0 < inject_Z k)%Q).
    { change 0%Q with (inject_Z 0). rewrite <- Zlt_Qlt. lia. }
    unfold round_pos.
    assert (Hq : quantum (inject_Z k) <= 0).
    { rewrite quantum_binade. unfold binade.
      assert (ilog2 (inject_Z k) < 53).
      { apply pow2_lt_inv. destruct (ilog2_spec _ Hpos) as [S1 _].
        apply Qle_lt_trans with (inject_Z k); [exact S1|].
        rewrite <- (pow2_inject 53) by lia. rewrite <- Zlt_Qlt. lia. }
      lia. }
    set (q := quantum (inject_Z k)) in *.
    assert (E : inject_Z k / pow2 q == inject_Z (k * 2 ^ (- q))).
    { rewrite inject_Z_mult, (pow2_inject (- q)) by lia.
      pose proof (pow2_pos q).
      setoid_replace (pow2 (- q)) with (/ pow2 q).
      - field. lra.
      - unfold pow2. rewrite Qpower_opp. reflexivity. }
    rewrite (rne_eqv _ _ E), rne_int, inject_Z_mult.
    rewrite (pow2_inject (- q)) by lia. rewrite <- Qmult_assoc, <- pow2_add.
    replace (- q + q) with 0 by lia. change (pow2 0) with 1%Q. ring. }
  assert (Hbound : forall k, 0 < k < 2 ^ 53 ->
            Qle_bool (pow2 1024) (round_pos (inject_Z k)) = false).
  { intros k Hk. destruct (Qle_bool _ _) eqn:E; [|reflexivity].
    apply Qle_bool_iff in E. rewrite (Key k Hk) in E.
    assert ((inject_Z k < pow2 1024)%Q).
    { apply Qle_lt_trans with (pow2 53).
      - rewrite <- (pow2_inject 53) by lia. rewrite <- Zle_Qle. lia.
      - apply pow2_lt. lia. }
    lra. }
  destruct (Z.lt_trichotomy z 0) as [Hn|[Hz0|Hp]].
  - rewrite round64_neg
      by (change 0%Q with (inject_Z 0); rewrite <- Zlt_Qlt; lia).
    assert (E : - inject_Z z == inject_Z (- z)) by (rewrite inject_Z_opp; reflexivity).
    assert (Hk : 0 < - z < 2 ^ 53) by lia.
    assert (Hpos : (0 < - inject_Z z)%Q).
    { rewrite E. change 0%Q with (inject_Z 0). rewrite <- Zlt_Qlt. lia. }
    assert (B : Qle_bool (pow2 1024) (round_pos (- inject_Z z)) = false).
    { rewrite <- (Hbound (- z) Hk). apply eq_true_iff_eq.
      rewrite !Qle_bool_iff, (round_pos_eqv _ _ Hpos E). reflexivity. }
    rewrite B. f_equal.
    transitivity (Qred (inject_Z z)).
    + apply Qred_complete. rewrite (round_pos_eqv _ _ Hpos E), (Key _ Hk).
      rewrite inject_Z_opp. ring.
    + apply Qcanon.Qred_identity. apply Z.gcd_1_r.
  - subst z. reflexivity.
  - rewrite round64_pos
      by (change 0%Q with (inject_Z 0); rewrite <- Zlt_Qlt; lia).
    rewrite (Hbound z) by lia. f_equal.
    transitivity (Qred (inject_Z z)).
    + apply Qred_complete. apply Key. lia.
    + apply Qcanon.Qred_identity. apply Z.gcd_1_r.
Qed.

End Rounding.

(** * The binary64 engine *)

Module B64Facts.

Import B64 Rounding.

(** ** Order of numbers *)

Lemma num_le_Fin (x y : Q) : (Fin x <= Fin y)%num <-> (x <= y)%Q.
Proof. unfold num_le, num_leb. apply Qle_bool_iff. Qed.

Lemma num_lt_Fin (x y : Q) : (Fin x < Fin y)%num <-> (x < y)%Q.
Proof.
  unfold num_lt, num_ltb. rewrite negb_true_iff. split.
  - intros H. apply Qnot_le_lt. intros C. apply Qle_bool_iff in C. congruence.
  - intros H. destruct (Qle_bool y x) eqn:E; [|reflexivity].
    apply Qle_bool_iff in E. lra.
Qed.

Lemma num_le_not_nan (a b : number) : (a <= b)%num -> a <> NaN /\ b <> NaN.
Proof. unfold num_le. destruct a, b; cbn; intros H; split; congruence. Qed.

Lemma num_le_refl (a : number) : a <> NaN -> (a <= a)%num.
Proof.
  unfold num_le. destruct a; cbn; try congruence.
  intros _. apply Qle_bool_iff. apply Qle_refl.
Qed.

Lemma num_eq_refl (a : number) : a <> NaN -> (a === a)%num.
Proof.
  unfold num_eq. destruct a; cbn; try congruence.
  intros _. apply Qeq_bool_iff. reflexivity.
Qed.

Lemma rnd_not_nan (a : number) : a <> NaN -> rnd a <> NaN.
Proof.
  destruct a; cbn [rnd]; try congruence. intros _. apply round64_not_nan.
Qed.

Lemma rnd_mono (a b : number) : (a <= b)%num -> (rnd a <= rnd b)%num.
Proof.
  intros H. destruct a as [x| | |], b as [y| | |];
    try discriminate H; cbn [rnd]; try reflexivity.
  - apply round64_mono. apply num_le_Fin. exact H.
  - pose proof (round64_not_nan x). unfold num_le.
    destruct (round64 x); cbn; congruence.
  - pose proof (round64_not_nan y). unfold num_le.
    destruct (round64 y); cbn; congruence.
Qed.

(** ** Operations on finite numbers *)

Lemma add_Fin (x y : Q) : add (Fin x) (Fin y) = round64 (x + y).
Proof. unfold add, Num.add, fin, rnd. apply round64_eqv. apply Qred_correct. Qed.

Lemma sub_Fin (x y : Q) : sub (Fin x) (Fin y) = round64 (x - y).
Proof. unfold sub, Num.sub, fin, rnd. apply round64_eqv. apply Qred_correct. Qed.

Lemma mul_Fin (x y : Q) : mul (Fin x) (Fin y) = round64 (x * y).
Proof. unfold mul, Num.mul, fin, rnd. apply round64_eqv. apply Qred_correct. Qed.

Lemma div_Fin (x y : Q) : ~ y == 0 -> div (Fin x) (Fin y) = round64 (x / y).
Proof.
  intros H. unfold div, Num.div.
  destruct (Qeq_bool y 0) eqn:E.
  - apply Qeq_bool_iff in E. contradiction.
  - unfold fin, rnd. apply round64_eqv. apply Qred_correct.
Qed.

Lemma sub_mono (x x' y y' : Q) :
  (x <= x')%Q -> (y' <= y)%Q ->
  (sub (Fin x) (Fin y) <= sub (Fin x') (Fin y'))%num.
Proof. intros H1 H2. rewrite !sub_Fin. apply round64_mono. lra. Qed.

Lemma mul_mono (x x' m : Q) :
  (0 <= m)%Q -> (x <= x')%Q ->
  (mul (Fin x) (Fin m) <= mul (Fin x') (Fin m))%num.
Proof.
  intros H1 H2. rewrite !mul_Fin. apply round64_mono.
  apply Qmult_le_compat_r; assumption.
Qed.

Lemma is_double_Fin (x : Q) : is_double (Fin x) <-> round64 x = Fin x.
Proof. reflexivity. Qed.

Lemma is_double_rnd (a : number) : is_double (rnd a).
Proof. apply rnd_idem. Qed.

Lemma is_double_of_Z (z : Z) : Z.abs z < 2 ^ 53 -> is_double (of_Z z).
Proof. intros H. apply round64_int. exact H. Qed.

Lemma add_of_Z (a b : Z) :
  Z.abs (a + b) < 2 ^ 53 -> add (of_Z a) (of_Z b) = of_Z (a + b).
Proof.
  intros H. unfold of_Z. rewrite add_Fin.
  rewrite (round64_eqv _ (inject_Z (a + b))) by (rewrite inject_Z_plus; reflexivity).
  apply round64_int. exact H.
Qed.

Lemma mul_of_Z (a b : Z) :
  Z.abs (a * b) < 2 ^ 53 -> mul (of_Z a) (of_Z b) = of_Z (a * b).
Proof.
  intros H. unfold of_Z. rewrite mul_Fin.
  rewrite (round64_eqv _ (inject_Z (a * b))) by (rewrite inject_Z_mult; reflexivity).
  apply round64_int. exact H.
Qed.

(** ** [Math.max(0, y)] *)

Lemma max0_nan (y : number) : Math_max (of_Z 0) y = NaN <-> y = NaN.
Proof.
  destruct y as [x| | |]; cbn; split; try congruence.
  - destruct (Qle_bool _ x); discriminate.
  - discriminate.
Qed.

Lemma max0_nonneg (y : number) : y <> NaN -> (of_Z 0 <= Math_max (of_Z 0) y)%num.
Proof.
  destruct y as [x| | |]; cbn; try congruence; intros _; try reflexivity.
  unfold num_le. destruct (Qle_bool (inject_Z 0) x) eqn:E; cbn.
  - exact E.
  - reflexivity.
Qed.

Lemma max0_le (y b : number) :
  (y <= b)%num -> (of_Z 0 <= b)%num -> (Math_max (of_Z 0) y <= b)%num.
Proof.
  intros H1 H2. destruct y as [x| | |]; try discriminate H1; cbn.
  - destruct (Qle_bool (inject_Z 0) x); assumption.
  - exact H1.
  - exact H2.
Qed.

Lemma max0_mono (y y' : number) :
  (y <= y')%num -> (Math_max (of_Z 0) y <= Math_max (of_Z 0) y')%num.
Proof.
  intros H. unfold num_le in *.
  destruct y as [x| | |], y' as [x'| | |]; try discriminate H;
    cbn in *; try reflexivity.
  - apply Qle_bool_iff in H.
    destruct (Qle_bool (inject_Z 0) x) eqn:E1;
      destruct (Qle_bool (inject_Z 0) x') eqn:E2; cbn.
    + apply Qle_bool_iff. exact H.
    + apply Qle_bool_iff in E1.
      assert (Qle_bool (inject_Z 0) x' = true) by (apply Qle_bool_iff; lra).
      congruence.
    + exact E2.
    + reflexivity.
  - destruct (Qle_bool (inject_Z 0) x); reflexivity.
  - destruct (Qle_bool (inject_Z 0) x') eqn:E; cbn; [exact E|reflexivity].
Qed.

Lemma max0_is_double (y : number) : is_double y -> is_double (Math_max (of_Z 0) y).
Proof.
  unfold is_double. destruct y as [x| | |]; cbn; try reflexivity.
  intros H. destruct (Qle_bool (inject_Z 0) x); [exact H|reflexivity].
Qed.

(** ** The loop *)

Section Push.

Variables (monthlyRate emi : number) (startYear startMonth : Z).
Variable totalMonths : number.

Lemma balance_at_succ (p : number) (k : nat) :
  balance_at monthlyRate emi (next_balance monthlyRate emi p) k
  = balance_at monthlyRate emi p (S k).
Proof.
  unfold balance_at. symmetry. apply Nat.iter_succ_r.
Qed.

Lemma entries_length (n : nat) :
  forall (i : Z) (b : number),
    length (entries monthlyRate emi startYear startMonth n i b) = n.
Proof.
  induction n as [|n IH]; intros i b; cbn [entries length]; [reflexivity|].
  rewrite IH. reflexivity.
Qed.

Lemma entries_nth (n : nat) :
  forall (k : nat) (i : Z) (b : number),
    (k < n)%nat ->
    nth_error (entries monthlyRate emi startYear startMonth n i b) k
    = Some (fst (schedule_step monthlyRate emi startYear startMonth
                   (i + Z.of_nat k) (balance_at monthlyRate emi b k))).
Proof.
  induction n as [|n IH]; intros k i b Hk; [lia|].
  cbn [entries]. destruct k as [|k].
  - cbn [nth_error]. rewrite Z.add_0_r. reflexivity.
  - cbn [nth_error]. rewrite IH by lia. rewrite balance_at_succ.
    replace (i + 1 + Z.of_nat k) with (i + Z.of_nat (S k)) by lia.
    reflexivity.
Qed.

(** While the array has room the loop pushes the entries one by one. *)
Lemma schedule_loop_returns (n : nat) :
  forall (i : Z) (b : number) (acc : list ScheduleEntry),
    (forall j, i <= j < i + Z.of_nat n -> num_leb (of_Z j) totalMonths = true) ->
    Z.of_nat (length acc) + Z.of_nat n <= max_array_length ->
    schedule_loop monthlyRate emi startYear startMonth totalMonths n i b acc
    = Returned (acc ++ entries monthlyRate emi startYear startMonth n i b).
Proof.
  induction n as [|n IH]; intros i b acc Hc Hl.
  - cbn. rewrite app_nil_r. reflexivity.
  - cbn [schedule_loop entries]. rewrite (Hc i) by lia.
    unfold Array_push.
    assert (E : (Z.of_nat (length acc) <? max_array_length) = true)
      by (apply Z.ltb_lt; lia).
    cbn [schedule_step]. rewrite E.
    rewrite IH.
    + rewrite <- app_assoc. reflexivity.
    + intros j Hj. apply Hc. lia.
    + rewrite length_app. cbn [length]. lia.
Qed.

(** The push onto a full array throws. *)
Lemma schedule_loop_throws (n : nat) :
  forall (i : Z) (b : number) (acc : list ScheduleEntry),
    (forall j, i <= j < i + Z.of_nat n -> num_leb (of_Z j) totalMonths = true) ->
    Z.of_nat (length acc) <= max_array_length ->
    max_array_length < Z.of_nat (length acc) + Z.of_nat n ->
    schedule_loop monthlyRate emi startYear startMonth totalMonths n i b acc
    = Threw RangeError.
Proof.
  induction n as [|n IH]; intros i b acc Hc Hl Hn; [lia|].
  cbn [schedule_loop]. rewrite (Hc i) by lia.
  unfold Array_push. cbn [schedule_step].
  destruct (Z.of_nat (length acc) <? max_array_length) eqn:E; [|reflexivity].
  apply Z.ltb_lt in E. apply IH.
  - intros j Hj. apply Hc. lia.
  - rewrite length_app. cbn [length]. lia.
  - rewrite length_app. cbn [length]. lia.
Qed.

End Push.

Lemma iterations_range (tm : number) : 0 <= iterations tm <= 2 ^ 32.
Proof. unfold iterations. destruct tm; lia. Qed.

Lemma iterations_cond (tm : number) (j : Z) :
  1 <= j <= iterations tm -> num_leb (of_Z j) tm = true.
Proof.
  unfold iterations. destruct tm as [x| | |]; intros H; try lia.
  - cbn. apply Qle_bool_iff.
    apply Qle_trans with (inject_Z (Qfloor x)); [|apply Qfloor_le].
    rewrite <- Zle_Qle. lia.
  - reflexivity.
Qed.

Lemma generateSchedule_returns (clock : Clock) (p r t e : number) :
  iterations (mul t (of_Z 12)) < 2 ^ 32 ->
  fst (generateSchedule clock p r t e)
  = Returned (entries (monthly_rate r) e
                (getFullYear (reading clock (reads clock)))
                (getMonth (reading clock (S (reads clock))))
                (Z.to_nat (iterations (mul t (of_Z 12)))) 1 p).
Proof.
  intros H. pose proof (iterations_range (mul t (of_Z 12))) as Hr.
  unfold generateSchedule. cbn [now fst snd reading reads].
  rewrite schedule_loop_returns; [reflexivity| |].
  - intros j Hj. apply iterations_cond. lia.
  - cbn [length]. unfold max_array_length. lia.
Qed.

Lemma generateSchedule_throws (clock : Clock) (p r t e : number) :
  iterations (mul t (of_Z 12)) = 2 ^ 32 ->
  fst (generateSchedule clock p r t e) = Threw RangeError.
Proof.
  intros H. unfold generateSchedule. cbn [now fst snd reading reads].
  apply schedule_loop_throws.
  - intros j Hj. apply iterations_cond. lia.
  - cbn [length]. unfold max_array_length. lia.
  - cbn [length]. rewrite H. unfold max_array_length. lia.
Qed.

Lemma generateSchedule_cases (clock : Clock) (p r t e : number) :
  (iterations (mul t (of_Z 12)) < 2 ^ 32
   /\ fst (generateSchedule clock p r t e)
      = Returned (entries (monthly_rate r) e
                    (getFullYear (reading clock (reads clock)))
                    (getMonth (reading clock (S (reads clock))))
                    (Z.to_nat (iterations (mul t (of_Z 12)))) 1 p))
  \/ (iterations (mul t (of_Z 12)) = 2 ^ 32
      /\ fst (generateSchedule clock p r t e) = Threw RangeError).
Proof.
  pose proof (iterations_range (mul t (of_Z 12))) as Hr.
  destruct (Z.eq_dec (iterations (mul t (of_Z 12))) (2 ^ 32)) as [E|NE].
  - right. split; [exact E|apply generateSchedule_throws; exact E].
  - left. split; [lia|apply generateSchedule_returns; lia].
Qed.

(** The entries of a returned schedule, one by one. *)
Lemma returned_nth_inv (clock : Clock) (p r t e : number)
  (l : list ScheduleEntry) (k : nat) (en : ScheduleEntry) :
  fst (generateSchedule clock p r t e) = Returned l ->
  nth_error l k = Some en ->
  Z.of_nat (length l) = iterations (mul t (of_Z 12))
  /\ (k < length l)%nat
  /\ en = fst (schedule_step (monthly_rate r) e
                 (getFullYear (reading clock (reads clock)))
                 (getMonth (reading clock (S (reads clock))))
                 (1 + Z.of_nat k)
                 (balance_at (monthly_rate r) e p k)).
Proof.
  intros Hl Hk. pose proof (iterations_range (mul t (of_Z 12))) as Hr.
  destruct (generateSchedule_cases clock p r t e) as [[_ E]|[_ E]];
    rewrite E in Hl; [|discriminate].
  injection Hl as <-.
  assert (Hlt : (k < Z.to_nat (iterations (mul t (of_Z 12))))%nat).
  { rewrite <- (entries_length (monthly_rate r) e
                  (getFullYear (reading clock (reads clock)))
                  (getMonth (reading clock (S (reads clock))))
                  (Z.to_nat (iterations (mul t (of_Z 12)))) 1 p).
    apply nth_error_Some. congruence. }
  rewrite entries_length. split; [lia|]. split; [exact Hlt|].
  rewrite entries_nth in Hk by exact Hlt. congruence.
Qed.

Lemma balance_before_at (clock : Clock) (p r t e : number)
  (l : list ScheduleEntry) (k : nat) :
  fst (generateSchedule clock p r t e) = Returned l ->
  (k < length l)%nat ->
  balance_before l p k = balance_at (monthly_rate r) e p k.
Proof.
  intros Hl Hk. destruct k as [|j]; [reflexivity|].
  unfold balance_before.
  destruct (nth_error l j) as [en|] eqn:E.
  - destruct (returned_nth_inv _ _ _ _ _ _ _ _ Hl E) as (_ & _ & ->).
    reflexivity.
  - apply nth_error_None in E. lia.
Qed.

(** ** The fuel of the loop *)

Lemma schedule_loop_split (mr e : number) (y0 m0 : Z) (tm : number)
  (n extra : nat) :
  forall (i : Z) (b : number) (acc : list ScheduleEntry),
    (forall j, i <= j < i + Z.of_nat n -> num_leb (of_Z j) tm = true) ->
    Z.of_nat (length acc) + Z.of_nat n <= max_array_length ->
    schedule_loop mr e y0 m0 tm (n + extra) i b acc
    = schedule_loop mr e y0 m0 tm extra (i + Z.of_nat n)
        (Nat.iter n (next_balance mr e) b)
        (acc ++ entries mr e y0 m0 n i b).
Proof.
  induction n as [|n IH]; intros i b acc Hc Hl.
  - cbn [Nat.add entries Nat.iter]. rewrite app_nil_r, Z.add_0_r.
    reflexivity.
  - cbn [Nat.add schedule_loop entries]. rewrite (Hc i) by lia.
    unfold Array_push.
    assert (E : (Z.of_nat (length acc) <? max_array_length) = true)
      by (apply Z.ltb_lt; lia).
    cbn [schedule_step]. rewrite E.
    rewrite IH.
    + rewrite <- app_assoc. rewrite Nat.iter_succ_r.
      replace (i + 1 + Z.of_nat n) with (i + Z.of_nat (S n)) by lia.
      reflexivity.
    + intros j Hj. apply Hc. lia.
    + rewrite length_app. cbn [length]. lia.
Qed.

Lemma iterations_stop (tm : number) :
  iterations tm < 2 ^ 32 -> num_leb (of_Z (1 + iterations tm)) tm = false.
Proof.
  unfold iterations. destruct tm as [x| | |]; intros H; try reflexivity.
  - unfold of_Z, num_leb.
    destruct (Qle_bool
                (inject_Z (1 + Z.max 0 (Z.min (Qfloor x) (2 ^ 32)))) x)
      eqn:C; [|reflexivity].
    exfalso. apply Qle_bool_iff in C.
    pose proof (Qlt_floor x) as Hf.
    assert (Hlt : (x < inject_Z (1 + Z.max 0 (Z.min (Qfloor x) (2 ^ 32))))%Q).
    { eapply Qlt_le_trans; [exact Hf|]. rewrite <- Zle_Qle. lia. }
    lra.
  - lia.
Qed.

(** The fuel of [generateSchedule] is enough: the loop stops, by its
    condition or by the throw, before it runs out, and more fuel changes
    nothing. *)
Lemma schedule_loop_fuel (mr e : number) (y0 m0 : Z) (tm : number)
  (b : number) (extra : nat) :
  schedule_loop mr e y0 m0 tm (Z.to_nat (iterations tm) + extra) 1 b []
  = schedule_loop mr e y0 m0 tm (Z.to_nat (iterations tm)) 1 b [].
Proof.
  pose proof (iterations_range tm) as Hr.
  destruct (Z.eq_dec (iterations tm) (2 ^ 32)) as [E|NE].
  - assert (T : forall extra',
              schedule_loop mr e y0 m0 tm
                (Z.to_nat (2 ^ 32 - 1) + S extra') 1 b []
              = Threw RangeError).
    { intros extra'. rewrite schedule_loop_split.
      - cbn [schedule_loop]. rewrite iterations_cond by lia.
        unfold Array_push. cbn [schedule_step].
        rewrite length_app, entries_length. cbn [length].
        assert (F : (Z.of_nat (0 + Z.to_nat (2 ^ 32 - 1))
                     <? max_array_length) = false)
          by (apply Z.ltb_ge; unfold max_array_length; lia).
        rewrite F. reflexivity.
      - intros j Hj. apply iterations_cond. lia.
      - cbn [length]. unfold max_array_length. lia. }
    rewrite E.
    replace (Z.to_nat (2 ^ 32)) with (Z.to_nat (2 ^ 32 - 1) + 1)%nat by lia.
    replace (Z.to_nat (2 ^ 32 - 1) + 1 + extra)%nat
      with (Z.to_nat (2 ^ 32 - 1) + S extra)%nat by lia.
    rewrite !T. reflexivity.
  - rewrite (schedule_loop_returns mr e y0 m0 tm (Z.to_nat (iterations tm)));
      [| intros j Hj; apply iterations_cond; lia
       | cbn [length]; unfold max_array_length; lia ].
    rewrite (schedule_loop_split mr e y0 m0 tm (Z.to_nat (iterations tm)));
      [| intros j Hj; apply iterations_cond; lia
       | cbn [length]; unfold max_array_length; lia ].
    destruct extra as [|extra]; [reflexivity|].
    cbn [schedule_loop].
    replace (1 + Z.of_nat (Z.to_nat (iterations tm)))
      with (1 + iterations tm) by lia.
    rewrite iterations_stop by lia. reflexivity.
Qed.

(** ** The labels of an entry *)

(** The month [a], counted from January of year 0, of the entry pushed
    for period [i] by a loop started in month [m0] of year [y0]. *)
Lemma step_labels (mr e : number) (y0 m0 i : Z) (b : number) :
  let a := 12 * (if (0 <=? y0) && (y0 <=? 99) then 1900 + y0 else y0)
           + m0 + i in
  (first_month <= a <= last_month ->
   month (fst (schedule_step mr e y0 m0 i b)) = of_Z (a mod 12 + 1)
   /\ year (fst (schedule_step mr e y0 m0 i b)) = of_Z (a / 12))
  /\ (~ (first_month <= a <= last_month) ->
      month (fst (schedule_step mr e y0 m0 i b)) = NaN
      /\ year (fst (schedule_step mr e y0 m0 i b)) = NaN).
Proof.
  intros a. cbn [schedule_step fst month year].
  set (yr := if (0 <=? y0) && (y0 <=? 99) then 1900 + y0 else y0) in *.
  assert (Ea : 12 * (yr + (m0 + i) / 12) + (m0 + i) mod 12 = a).
  { unfold a. pose proof (Z.div_mod (m0 + i) 12). lia. }
  assert (Emod : a mod 12 = (m0 + i) mod 12).
  { rewrite <- Ea. rewrite Z.add_comm, Z.mul_comm.
    rewrite Z.mod_add by lia. apply Z.mod_mod. lia. }
  assert (Ediv : a / 12 = yr + (m0 + i) / 12).
  { rewrite <- Ea. rewrite Z.add_comm, Z.mul_comm.
    rewrite Z.div_add by lia.
    rewrite Z.mod_div by lia. lia. }
  unfold make. fold yr. rewrite Ea.
  split.
  - intros Hv.
    assert (E : (first_month <=? a) && (a <=? last_month) = true).
    { apply andb_true_iff. split; apply Z.leb_le; lia. }
    rewrite E. cbn [Date_getMonth Date_getFullYear].
    rewrite add_of_Z.
    + rewrite Emod, Ediv. split; reflexivity.
    + pose proof (Z.mod_pos_bound (m0 + i) 12). lia.
  - intros Hv.
    assert (E : (first_month <=? a) && (a <=? last_month) = false).
    { apply andb_false_iff.
      destruct (Z.leb_spec first_month a);
        destruct (Z.leb_spec a last_month); auto. lia. }
    rewrite E. split; reflexivity.
Qed.

End B64Facts.

Module B64Schedule.

Import B64 Rounding B64Facts.

(** ** Balances that are never [NaN] *)


Lemma next_balance_defined (m e : Q) (b : number) :
  (0 < m)%Q -> finite_or_inf b ->
  finite_or_inf (next_balance (Fin m) (Fin e) b)
  /\ (of_Z 0 <= next_balance (Fin m) (Fin e) b)%num.
Proof.
  intros Hm Hb.
  assert (Hy : sub b (sub (Fin e) (mul b (Fin m))) <> NaN
               /\ sub b (sub (Fin e) (mul b (Fin m))) <> NegInf
               \/ exists x, b = Fin x).
  { destruct Hb as [->|[x ->]]; [left|right; eauto].
    assert (E : mul PosInf (Fin m) = PosInf).
    { unfold mul, Num.mul. destruct (m ?= 0)%Q eqn:C; cbn.
      - apply Qeq_alt in C. lra.
      - apply Qlt_alt in C. lra.
      - reflexivity. }
    rewrite E. cbn. split; discriminate. }
  assert (Hn : sub b (sub (Fin e) (mul b (Fin m))) <> NaN).
  { destruct Hy as [[H _]|[x ->]]; [exact H|].
    rewrite mul_Fin.
    pose proof (round64_not_nan (x * m)) as H1.
    destruct (round64 (x * m)) as [i| | |] eqn:Ei; try congruence.
    - rewrite sub_Fin. pose proof (round64_not_nan (e - i)) as H2.
      destruct (round64 (e - i)) as [pp| | |] eqn:Ep; try congruence.
      + rewrite sub_Fin. apply round64_not_nan.
      + discriminate.
      + discriminate.
    - discriminate.
    - discriminate. }
  unfold next_balance. split.
  - unfold finite_or_inf.
    destruct (sub b (sub (Fin e) (mul b (Fin m)))) as [y| | |];
      try congruence; cbn.
    + right. destruct (Qle_bool (inject_Z 0) y); eexists; reflexivity.
    + left. reflexivity.
    + right. eexists. reflexivity.
  - apply max0_nonneg. exact Hn.
Qed.

Lemma balance_at_defined (m e p : Q) (k : nat) :
  (0 < m)%Q ->
  finite_or_inf (balance_at (Fin m) (Fin e) (Fin p) k)
  /\ (of_Z 0 <= balance_at (Fin m) (Fin e) (Fin p) (S k))%num.
Proof.
  intros Hm.
  assert (H : finite_or_inf (balance_at (Fin m) (Fin e) (Fin p) k)).
  { induction k as [|k IH].
    - right. exists p. reflexivity.
    - apply (next_balance_defined m e _ Hm IH). }
  split; [exact H|]. apply (next_balance_defined m e _ Hm H).
Qed.

(** ** A payment that covers the first interest *)

Section Covered.

Variables (P E m : Q).
Hypothesis P_nonneg : (0 <= P)%Q.
Hypothesis P_double : round64 P = Fin P.
Hypothesis E_double : round64 E = Fin E.
Hypothesis m_nonneg : (0 <= m)%Q.
Hypothesis covered : (mul (Fin P) (Fin m) <= Fin E)%num.


Lemma interest_in_range (x : Q) :
  (0 <= x <= P)%Q ->
  exists i, mul (Fin x) (Fin m) = Fin i /\ (0 <= i <= E)%Q.
Proof.
  intros Hx.
  assert (H1 : (mul (Fin x) (Fin m) <= Fin E)%num).
  { eapply num_le_trans; [|exact covered]. apply mul_mono; lra. }
  assert (H0 : (Fin 0 <= mul (Fin x) (Fin m))%num).
  { rewrite mul_Fin. apply round64_nonneg. apply Qmult_le_0_compat; lra. }
  destruct (mul (Fin x) (Fin m)) as [i| | |]; try discriminate.
  exists i. split; [reflexivity|].
  apply num_le_Fin in H1. apply num_le_Fin in H0. lra.
Qed.

Lemma principal_in_range (i : Q) :
  (0 <= i <= E)%Q ->
  exists pp, sub (Fin E) (Fin i) = Fin pp /\ (0 <= pp <= E)%Q.
Proof.
  intros Hi. rewrite sub_Fin.
  assert (H1 : (round64 (E - i) <= Fin E)%num).
  { rewrite <- E_double. apply round64_mono. lra. }
  assert (H0 : (Fin 0 <= round64 (E - i))%num).
  { apply round64_nonneg. lra. }
  destruct (round64 (E - i)) as [pp| | |]; try discriminate.
  exists pp. split; [reflexivity|].
  apply num_le_Fin in H1. apply num_le_Fin in H0. lra.
Qed.

Lemma next_balance_in_range (b : number) :
  in_range P b ->
  in_range P (next_balance (Fin m) (Fin E) b)
  /\ (next_balance (Fin m) (Fin E) b <= b)%num.
Proof.
  intros (x & -> & Hx & Hd).
  destruct (interest_in_range x Hx) as (i & Ei & Hi).
  destruct (principal_in_range i Hi) as (pp & Ep & Hp).
  unfold next_balance. rewrite Ei, Ep.
  assert (H1 : (sub (Fin x) (Fin pp) <= Fin x)%num).
  { rewrite sub_Fin. rewrite <- Hd. apply round64_mono. lra. }
  assert (H2 : (of_Z 0 <= Fin x)%num)
    by (unfold of_Z; apply num_le_Fin; change (inject_Z 0) with 0%Q; lra).
  pose proof (max0_le _ _ H1 H2) as Hle.
  assert (Hn : sub (Fin x) (Fin pp) <> NaN)
    by (rewrite sub_Fin; apply round64_not_nan).
  pose proof (max0_nonneg _ Hn) as H0.
  assert (Hdd : is_double (Math_max (of_Z 0) (sub (Fin x) (Fin pp))))
    by (apply max0_is_double; apply is_double_rnd).
  split; [|exact Hle].
  destruct (Math_max (of_Z 0) (sub (Fin x) (Fin pp))) as [y| | |];
    try discriminate.
  exists y. split; [reflexivity|].
  apply num_le_Fin in Hle. unfold of_Z in H0. apply num_le_Fin in H0.
  change (inject_Z 0) with 0%Q in H0.
  split; [lra|exact Hdd].
Qed.

Lemma balance_at_in_range (k : nat) :
  in_range P (balance_at (Fin m) (Fin E) (Fin P) k).
Proof.
  induction k as [|k IH].
  - exists P. split; [reflexivity|]. split; [lra|exact P_double].
  - apply (next_balance_in_range _ IH).
Qed.

Lemma balance_at_step (k : nat) :
  (balance_at (Fin m) (Fin E) (Fin P) (S k)
   <= balance_at (Fin m) (Fin E) (Fin P) k)%num.
Proof. apply (next_balance_in_range _ (balance_at_in_range k)). Qed.

Lemma balance_at_antitone (j k : nat) :
  (j <= k)%nat ->
  (balance_at (Fin m) (Fin E) (Fin P) k
   <= balance_at (Fin m) (Fin E) (Fin P) j)%num.
Proof.
  induction 1 as [|k Hjk IH].
  - destruct (balance_at_in_range j) as (x & -> & _).
    apply num_le_refl. discriminate.
  - eapply num_le_trans; [apply balance_at_step|exact IH].
Qed.

Lemma interest_antitone (b1 b2 : number) :
  in_range P b1 -> in_range P b2 -> (b2 <= b1)%num ->
  (mul b2 (Fin m) <= mul b1 (Fin m))%num.
Proof.
  intros (x1 & -> & _) (x2 & -> & _) H.
  apply mul_mono; [exact m_nonneg|]. apply num_le_Fin. exact H.
Qed.

Lemma principal_monotone (b1 b2 : number) :
  in_range P b1 -> in_range P b2 -> (b2 <= b1)%num ->
  (sub (Fin E) (mul b1 (Fin m)) <= sub (Fin E) (mul b2 (Fin m)))%num.
Proof.
  intros (x1 & -> & H1 & _) (x2 & -> & H2 & _) H.
  destruct (interest_in_range x1 H1) as (i1 & E1 & _).
  destruct (interest_in_range x2 H2) as (i2 & E2 & _).
  pose proof (mul_mono x2 x1 m m_nonneg (proj1 (num_le_Fin _ _) H)) as Hi.
  rewrite E1, E2 in *. apply sub_mono; [lra|].
  apply num_le_Fin. exact Hi.
Qed.

End Covered.

(** The monthly rate of a rate that is not negative. *)
Lemma monthly_rate_nonneg (R : Q) :
  (0 <= R)%Q ->
  monthly_rate (Fin R) = PosInf
  \/ exists m, monthly_rate (Fin R) = Fin m /\ (0 <= m)%Q.
Proof.
  intros HR. unfold monthly_rate, of_Z.
  assert (N12 : ~ inject_Z 12 == 0) by (unfold Qeq; cbn; lia).
  assert (N100 : ~ inject_Z 100 == 0) by (unfold Qeq; cbn; lia).
  assert (P12 : (0 < inject_Z 12)%Q) by reflexivity.
  assert (P100 : (0 < inject_Z 100)%Q) by reflexivity.
  rewrite (div_Fin R _ N12).
  assert (H0 : (Fin 0 <= round64 (R / inject_Z 12))%num).
  { apply round64_nonneg. apply Qle_shift_div_l; [exact P12|lra]. }
  destruct (round64 (R / inject_Z 12)) as [x| | |] eqn:Ex;
    try discriminate H0.
  - apply num_le_Fin in H0.
    rewrite (div_Fin x _ N100).
    assert (H1 : (Fin 0 <= round64 (x / inject_Z 100))%num).
    { apply round64_nonneg. apply Qle_shift_div_l; [exact P100|lra]. }
    destruct (round64 (x / inject_Z 100)) as [y| | |] eqn:Ey;
      try discriminate H1.
    + right. exists y. split; [reflexivity|]. apply num_le_Fin. exact H1.
    + left. reflexivity.
  - left. reflexivity.
Qed.

(** A payment that covers the first interest leaves the rate finite. *)
Lemma covered_rate (P R E : Q) :
  (0 <= P)%Q -> (0 <= R)%Q ->
  (mul (Fin P) (monthly_rate (Fin R)) <= Fin E)%num ->
  exists m, monthly_rate (Fin R) = Fin m /\ (0 <= m)%Q.
Proof.
  intros HP HR Hc.
  destruct (monthly_rate_nonneg R HR) as [E1|H]; [|exact H].
  exfalso. rewrite E1 in Hc. unfold mul, Num.mul in Hc.
  destruct (P ?= 0)%Q eqn:C; cbn in Hc; try discriminate.
  apply Qlt_alt in C. lra.
Qed.

End B64Schedule.

Module B64Sum.

Import B64 Rounding B64Facts B64Schedule.



Section RoundTrip.

Variables (P E m : Q).
Hypothesis P_nonneg : (0 <= P)%Q.
Hypothesis P_double : round64 P = Fin P.
Hypothesis E_double : round64 E = Fin E.
Hypothesis m_nonneg : (0 <= m)%Q.
Hypothesis covered : (mul (Fin P) (Fin m) <= Fin E)%num.




End RoundTrip.

End B64Sum.

Module B64Edge.

Import B64 Rounding B64Facts B64Schedule.

Lemma num_eq_of_Z (a b : Z) : (of_Z a === of_Z b)%num <-> a = b.
Proof.
  unfold num_eq, of_Z. cbn [num_eqb]. rewrite Qeq_bool_iff.
  rewrite inject_Z_injective. reflexivity.
Qed.

Lemma num_eq_Fin (x y : Q) : (Fin x === Fin y)%num <-> x == y.
Proof. unfold num_eq. cbn [num_eqb]. apply Qeq_bool_iff. Qed.

(** ** A rate of exactly 0 *)

Lemma next_balance_zero_rate (E x : Q) :
  (0 <= E)%Q -> round64 E = Fin E -> round64 x = Fin x ->
  mul (Fin x) (Fin 0) = Fin 0
  /\ sub (Fin E) (Fin 0) = Fin E
  /\ exists x', next_balance (Fin 0) (Fin E) (Fin x) = Fin x'
                /\ round64 x' = Fin x'.
Proof.
  intros HE HdE Hdx.
  assert (Ei : mul (Fin x) (Fin 0) = Fin 0).
  { rewrite mul_Fin. apply round64_zero. ring. }
  assert (Ep : sub (Fin E) (Fin 0) = Fin E).
  { rewrite sub_Fin. rewrite (round64_eqv (E - 0) E) by ring. exact HdE. }
  split; [exact Ei|]. split; [exact Ep|].
  unfold next_balance. rewrite Ei, Ep.
  assert (H1 : (sub (Fin x) (Fin E) <= Fin x)%num).
  { rewrite sub_Fin. rewrite <- Hdx. apply round64_mono. lra. }
  assert (Hd : is_double (Math_max (of_Z 0) (sub (Fin x) (Fin E))))
    by (apply max0_is_double; apply is_double_rnd).
  destruct (sub (Fin x) (Fin E)) as [y| | |]; try discriminate H1.
  - cbn in *. destruct (Qle_bool (inject_Z 0) y).
    + exists y. split; [reflexivity|exact Hd].
    + exists (inject_Z 0). split; [reflexivity|exact Hd].
  - exists (inject_Z 0). split; [reflexivity|exact Hd].
Qed.

Lemma balance_at_zero_rate (P E : Q) (k : nat) :
  (0 <= E)%Q -> round64 E = Fin E -> round64 P = Fin P ->
  exists x, balance_at (Fin 0) (Fin E) (Fin P) k = Fin x
            /\ round64 x = Fin x.
Proof.
  intros HE HdE HdP. induction k as [|k (x & Ex & Hdx)].
  - exists P. split; [reflexivity|exact HdP].
  - destruct (next_balance_zero_rate E x HE HdE Hdx) as (_ & _ & x' & E' & H').
    exists x'. split; [|exact H'].
    change (balance_at (Fin 0) (Fin E) (Fin P) (S k))
      with (next_balance (Fin 0) (Fin E)
              (balance_at (Fin 0) (Fin E) (Fin P) k)).
    rewrite Ex. exact E'.
Qed.

(** ** A balance of 0 *)

Lemma next_balance_paid_off (m E z : Q) :
  (0 <= E)%Q -> round64 E = Fin E -> z == 0 ->
  mul (Fin z) (Fin m) = Fin 0
  /\ sub (Fin E) (Fin 0) = Fin E
  /\ exists z', next_balance (Fin m) (Fin E) (Fin z) = Fin z' /\ z' == 0.
Proof.
  intros HE HdE Hz.
  assert (Ei : mul (Fin z) (Fin m) = Fin 0).
  { rewrite mul_Fin. apply round64_zero. rewrite Hz. ring. }
  assert (Ep : sub (Fin E) (Fin 0) = Fin E).
  { rewrite sub_Fin. rewrite (round64_eqv (E - 0) E) by ring. exact HdE. }
  split; [exact Ei|]. split; [exact Ep|].
  unfold next_balance. rewrite Ei, Ep.
  assert (H1 : (sub (Fin z) (Fin E) <= Fin 0)%num).
  { rewrite sub_Fin. apply round64_nonpos. lra. }
  destruct (sub (Fin z) (Fin E)) as [y| | |]; try discriminate H1.
  - apply num_le_Fin in H1. cbn.
    destruct (Qle_bool (inject_Z 0) y) eqn:C.
    + exists y. split; [reflexivity|].
      apply Qle_bool_iff in C. change (inject_Z 0) with 0%Q in C. lra.
    + exists (inject_Z 0). split; reflexivity.
  - exists (inject_Z 0). split; reflexivity.
Qed.

Lemma balance_at_paid_off (p : number) (m E : Q) (j d : nat) (z : Q) :
  (0 <= E)%Q -> round64 E = Fin E ->
  balance_at (Fin m) (Fin E) p j = Fin z -> z == 0 ->
  exists z', balance_at (Fin m) (Fin E) p (j + d) = Fin z' /\ z' == 0.
Proof.
  intros HE HdE Ej Hz. induction d as [|d (z1 & E1 & H1)].
  - exists z. rewrite Nat.add_0_r. split; assumption.
  - destruct (next_balance_paid_off m E z1 HE HdE H1)
      as (_ & _ & z' & E' & H').
    exists z'. split; [|exact H'].
    replace (j + S d)%nat with (S (j + d)) by lia.
    change (balance_at (Fin m) (Fin E) p (S (j + d)))
      with (next_balance (Fin m) (Fin E)
              (balance_at (Fin m) (Fin E) p (j + d))).
    rewrite E1. exact E'.
Qed.

(** ** A payment below the interest *)

Section Underpaid.

Variables (P E m : Q).
Hypothesis P_nonneg : (0 <= P)%Q.
Hypothesis P_double : round64 P = Fin P.
Hypothesis m_pos : (0 < m)%Q.
Hypothesis underpaid : (Fin E <= mul (Fin P) (Fin m))%num.

Lemma next_balance_underpaid (b : number) :
  at_least P b ->
  at_least P (next_balance (Fin m) (Fin E) b)
  /\ (sub (Fin E) (mul b (Fin m)) <= of_Z 0)%num
  /\ (b <= next_balance (Fin m) (Fin E) b)%num.
Proof.
  intros [->|(x & -> & Hx & Hdx)].
  - assert (Ei : mul PosInf (Fin m) = PosInf).
    { unfold mul, Num.mul. destruct (m ?= 0)%Q eqn:C; cbn.
      - apply Qeq_alt in C. lra.
      - apply Qlt_alt in C. lra.
      - reflexivity. }
    unfold next_balance. rewrite Ei. cbn.
    split; [left; reflexivity|]. split; reflexivity.
  - assert (Hi : (Fin E <= mul (Fin x) (Fin m))%num).
    { eapply num_le_trans; [exact underpaid|]. apply mul_mono; lra. }
    assert (Hpp : (sub (Fin E) (mul (Fin x) (Fin m)) <= of_Z 0)%num).
    { destruct (mul (Fin x) (Fin m)) as [i| | |]; try discriminate Hi.
      - apply num_le_Fin in Hi. rewrite sub_Fin.
        apply (round64_nonpos (E - i)). lra.
      - reflexivity. }
    assert (Hy : (Fin x <= sub (Fin x) (sub (Fin E) (mul (Fin x) (Fin m))))%num).
    { destruct (sub (Fin E) (mul (Fin x) (Fin m))) as [q| | |];
        try discriminate Hpp.
      - unfold of_Z in Hpp. apply num_le_Fin in Hpp.
        change (inject_Z 0) with 0%Q in Hpp.
        rewrite sub_Fin. rewrite <- Hdx at 1. apply round64_mono. lra.
      - reflexivity. }
    assert (Hd : is_double (sub (Fin x) (sub (Fin E) (mul (Fin x) (Fin m)))))
      by apply is_double_rnd.
    unfold next_balance.
    destruct (sub (Fin x) (sub (Fin E) (mul (Fin x) (Fin m))))
      as [y| | |]; try discriminate Hy.
    + apply num_le_Fin in Hy.
      assert (C : Qle_bool (inject_Z 0) y = true).
      { apply Qle_bool_iff. change (inject_Z 0) with 0%Q. lra. }
      cbn. rewrite C.
      split; [right; exists y; repeat split; [lra|exact Hd]|].
      split; [exact Hpp|]. apply num_le_Fin. exact Hy.
    + cbn. split; [left; reflexivity|]. split; [exact Hpp|reflexivity].
Qed.

Lemma balance_at_underpaid (k : nat) :
  at_least P (balance_at (Fin m) (Fin E) (Fin P) k).
Proof.
  induction k as [|k IH].
  - right. exists P. repeat split; [lra|exact P_double].
  - apply (next_balance_underpaid _ IH).
Qed.

End Underpaid.

End B64Edge.

(** * The engine validates nothing *)

(** C2 (as the code has it): neither function inspects its arguments.
    Whatever numbers it is given, NaN and the infinities included,
    [calculateEMI] builds a summary that echoes the principal and counts
    [tenureYears * 12] periods, and [generateSchedule] enters its loop
    once for each integer from 1 up to [tenureYears * 12]: it returns a
    schedule of that many entries when they are fewer than [2^32], and
    otherwise (an infinite tenure included) the [push] onto the full
    array throws a [RangeError].  No other error arises. *)
Theorem engine_validates_nothing
  (Math_pow : number -> number -> number) (clock : Clock)
  (principal annualRate tenureYears emi : number) :
  principalAmount (B64.calculateEMI Math_pow principal annualRate tenureYears)
  = principal
  /\ tenureMonths (B64.calculateEMI Math_pow principal annualRate tenureYears)
     = B64.mul tenureYears (of_Z 12)
  /\ (B64.iterations (B64.mul tenureYears (of_Z 12)) < 2 ^ 32 ->
      exists schedule,
        fst (B64.generateSchedule clock principal annualRate tenureYears emi)
        = B64.Returned schedule
        /\ Z.of_nat (length schedule)
           = B64.iterations (B64.mul tenureYears (of_Z 12)))
  /\ (B64.iterations (B64.mul tenureYears (of_Z 12)) = 2 ^ 32 ->
      fst (B64.generateSchedule clock principal annualRate tenureYears emi)
      = B64.Threw B64.RangeError)
  /\ fst (B64.generateSchedule clock principal annualRate tenureYears emi)
     <> B64.Threw B64.InvalidInput.
Proof.
  split; [reflexivity|]. split; [reflexivity|].
  pose proof (B64Facts.iterations_range (B64.mul tenureYears (of_Z 12))) as Hr.
  split; [|split].
  - intros H. eexists. split.
    + apply B64Facts.generateSchedule_returns. exact H.
    + rewrite B64Facts.entries_length. lia.
  - apply B64Facts.generateSchedule_throws.
  - destruct (B64Facts.generateSchedule_cases clock principal annualRate
                tenureYears emi) as [[_ E]|[_ E]]; rewrite E; discriminate.
Qed.

(** C2, the spec's reading refuted: at a negative principal (-1000 at
    1200% over 1 year, where the power is the exact [2^12]) the summary
    carries a payment below zero, and the schedule generated with it is
    returned, twelve entries long; no error is raised. *)
Lemma engine_accepts_negative_principal :
  (monthlyEmi (B64.calculateEMI B64.Math_pow_ref
                 (of_Z (-1000)) (of_Z 1200) (of_Z 1))
   < of_Z 0)%num
  /\ exists schedule,
       fst (B64.generateSchedule (fixed_clock 2026 10)
              (of_Z (-1000)) (of_Z 1200) (of_Z 1)
              (monthlyEmi (B64.calculateEMI B64.Math_pow_ref
                             (of_Z (-1000)) (of_Z 1200) (of_Z 1))))
       = B64.Returned schedule
       /\ length schedule = 12%nat.
Proof.
  split.
  - vm_compute. reflexivity.
  - eexists. split.
    + vm_compute. reflexivity.
    + reflexivity.
Qed.

(** * The entries of the schedule *)

(** C3 (in binary64): for every input and every entry of a returned
    schedule, the interest portion is the balance before the period
    times the monthly rate, the principal portion is the payment less
    that interest, and the balance is the balance before less the
    principal portion, clamped at 0, each operation rounded to binary64;
    the balance before the first period is the principal.  The sum of
    the two portions is the payment up to the one rounding of the
    subtraction: within [2^-53 * |payment - interest| + 2^-1075]. *)
Theorem schedule_entry_relations (clock : Clock)
  (principal annualRate tenureYears emi : number)
  (schedule : list B64.ScheduleEntry) (k : nat) (entry : B64.ScheduleEntry) :
  fst (B64.generateSchedule clock principal annualRate tenureYears emi)
  = B64.Returned schedule ->
  nth_error schedule k = Some entry ->
  B64.balance_before schedule principal 0 = principal
  /\ B64.interest entry
     = B64.mul (B64.balance_before schedule principal k)
               (B64.div (B64.div annualRate (of_Z 12)) (of_Z 100))
  /\ B64.principal entry = B64.sub emi (B64.interest entry)
  /\ B64.balance entry
     = Math_max (of_Z 0)
         (B64.sub (B64.balance_before schedule principal k)
                  (B64.principal entry))
  /\ (forall e i pp : Q,
        emi = Fin e -> B64.interest entry = Fin i ->
        B64.principal entry = Fin pp ->
        (Qabs (pp + i - e)
         <= B64.pow2 (-53) * Qabs (e - i) + B64.pow2 (-1075))%Q).
Proof.
  intros Hl Hk.
  destruct (B64Facts.returned_nth_inv _ _ _ _ _ _ _ _ Hl Hk)
    as (_ & Hlt & ->).
  rewrite (B64Facts.balance_before_at _ _ _ _ _ _ _ Hl Hlt).
  cbn [B64.schedule_step fst B64.interest B64.principal B64.balance].
  split; [reflexivity|]. split; [reflexivity|].
  split; [reflexivity|]. split; [reflexivity|].
  intros e i pp -> Hi Hpp. rewrite Hi in Hpp.
  rewrite B64Facts.sub_Fin in Hpp.
  pose proof (Rounding.round64_error _ _ Hpp) as H.
  assert (E : (pp + i - e == pp - (e - i))%Q) by ring.
  rewrite (Qabs_wd _ _ E). exact H.
Qed.

Lemma schedule_entry_relations_witness :
  exists schedule entry,
    fst (B64.generateSchedule (fixed_clock 2026 10)
           (of_Z 50000) (B64.literal (15 # 2)) (of_Z 5)
           (B64.literal (10018974297811764 # 10000000000000)))
    = B64.Returned schedule
    /\ nth_error schedule 2 = Some entry
    /\ B64.principal entry
       = B64.sub (B64.literal (10018974297811764 # 10000000000000))
                 (B64.interest entry).
Proof.
  eexists. eexists. split; [vm_compute; reflexivity|].
  split; [vm_compute; reflexivity|].
  eapply (schedule_entry_relations (fixed_clock 2026 10)
            (of_Z 50000) (B64.literal (15 # 2)) (of_Z 5)
            (B64.literal (10018974297811764 # 10000000000000)) _ 2%nat);
    [vm_compute; reflexivity|vm_compute; reflexivity].
Defined.

(** C3, the exact sum refuted: at the caller's default input (50000 at
    7.5% over 5 years, payment 1001.8974297811764) the principal and
    interest portions of the third entry do not add up to the payment,
    neither as real numbers nor under the addition of the source. *)
Lemma schedule_entry_sum_differs :
  exists schedule entry,
    fst (B64.generateSchedule (fixed_clock 2026 10)
           (of_Z 50000) (B64.literal (15 # 2)) (of_Z 5)
           (B64.literal (10018974297811764 # 10000000000000)))
    = B64.Returned schedule
    /\ nth_error schedule 2 = Some entry
    /\ ~ (Num.add (B64.principal entry) (B64.interest entry)
          === B64.literal (10018974297811764 # 10000000000000))%num
    /\ ~ (B64.add (B64.principal entry) (B64.interest entry)
          === B64.literal (10018974297811764 # 10000000000000))%num.
Proof.
  eexists. eexists. split; [vm_compute; reflexivity|].
  split; [vm_compute; reflexivity|].
  split; vm_compute; discriminate.
Qed.

(** * The summary *)

(** C4 (in binary64): for every input, and whatever the implementation
    of [Math.pow] returns, the summary counts [tenureYears * 12]
    periods and echoes the principal; [totalPayable] is the product of
    the payment and the period count as binary64 multiplies them (the
    two are equal under [===] unless they are [NaN]), and
    [totalInterest] is [totalPayable - principal] rounded once: when the
    three amounts are finite, [totalPayable] and
    [totalInterest + principal] differ by at most
    [2^-53 * |totalPayable - principal| + 2^-1075]. *)
Theorem summary_totals (Math_pow : number -> number -> number)
  (principal annualRate tenureYears : number) :
  tenureMonths (B64.calculateEMI Math_pow principal annualRate tenureYears)
  = B64.mul tenureYears (of_Z 12)
  /\ principalAmount
       (B64.calculateEMI Math_pow principal annualRate tenureYears)
     = principal
  /\ totalPayable (B64.calculateEMI Math_pow principal annualRate tenureYears)
     = B64.mul
         (monthlyEmi
            (B64.calculateEMI Math_pow principal annualRate tenureYears))
         (tenureMonths
            (B64.calculateEMI Math_pow principal annualRate tenureYears))
  /\ (totalPayable
        (B64.calculateEMI Math_pow principal annualRate tenureYears) <> NaN ->
      (totalPayable
         (B64.calculateEMI Math_pow principal annualRate tenureYears)
       === B64.mul
             (monthlyEmi
                (B64.calculateEMI Math_pow principal annualRate tenureYears))
             (tenureMonths
                (B64.calculateEMI Math_pow principal annualRate tenureYears))
      )%num)
  /\ totalInterest
       (B64.calculateEMI Math_pow principal annualRate tenureYears)
     = B64.sub
         (totalPayable
            (B64.calculateEMI Math_pow principal annualRate tenureYears))
         principal
  /\ (forall tp p ti : Q,
        totalPayable
          (B64.calculateEMI Math_pow principal annualRate tenureYears)
        = Fin tp ->
        principal = Fin p ->
        totalInterest
          (B64.calculateEMI Math_pow principal annualRate tenureYears)
        = Fin ti ->
        (Qabs (tp - (ti + p))
         <= B64.pow2 (-53) * Qabs (tp - p) + B64.pow2 (-1075))%Q).
Proof.
  split; [reflexivity|]. split; [reflexivity|]. split; [reflexivity|].
  split; [apply B64Facts.num_eq_refl|]. split; [reflexivity|].
  intros tp p ti Htp -> Hti.
  cbn [B64.calculateEMI totalInterest totalPayable] in Htp, Hti.
  rewrite Htp in Hti. rewrite B64Facts.sub_Fin in Hti.
  pose proof (Rounding.round64_error _ _ Hti) as H.
  assert (E : (tp - (ti + p) == - (ti - (tp - p)))%Q) by ring.
  rewrite (Qabs_wd _ _ E), Qabs_opp. exact H.
Qed.

Lemma summary_totals_witness :
  totalPayable (B64.calculateEMI B64.Math_pow_ref
                  (of_Z 1000) (of_Z 1200) (of_Z 5)) = Fin 60000
  /\ totalInterest (B64.calculateEMI B64.Math_pow_ref
                      (of_Z 1000) (of_Z 1200) (of_Z 5)) = Fin 59000
  /\ (Qabs (60000 - (59000 + 1000))
      <= B64.pow2 (-53) * Qabs (60000 - 1000) + B64.pow2 (-1075))%Q.
Proof.
  split; [vm_compute; reflexivity|]. split; [vm_compute; reflexivity|].
  apply (proj2 (proj2 (proj2 (proj2 (proj2
           (summary_totals B64.Math_pow_ref
              (of_Z 1000) (of_Z 1200) (of_Z 5))))))
           60000 1000 59000)%Q.
  - vm_compute. reflexivity.
  - reflexivity.
  - vm_compute. reflexivity.
Defined.

(** C4, refuted at the valid rate 0: the power [1^120] is 1, the payment
    is [0/0], and the totals are [NaN], which equal nothing, within a
    tolerance or not. *)
Lemma summary_totals_nan_at_zero_rate :
  totalPayable (B64.calculateEMI B64.Math_pow_ref
                  (of_Z 100000) (of_Z 0) (of_Z 10)) = NaN
  /\ totalInterest (B64.calculateEMI B64.Math_pow_ref
                      (of_Z 100000) (of_Z 0) (of_Z 10)) = NaN
  /\ ~ (totalPayable (B64.calculateEMI B64.Math_pow_ref
                        (of_Z 100000) (of_Z 0) (of_Z 10))
        === B64.mul
              (monthlyEmi (B64.calculateEMI B64.Math_pow_ref
                             (of_Z 100000) (of_Z 0) (of_Z 10)))
              (tenureMonths (B64.calculateEMI B64.Math_pow_ref
                               (of_Z 100000) (of_Z 0) (of_Z 10))))%num
  /\ ~ (totalPayable (B64.calculateEMI B64.Math_pow_ref
                        (of_Z 100000) (of_Z 0) (of_Z 10))
        === Num.add
              (totalInterest (B64.calculateEMI B64.Math_pow_ref
                                (of_Z 100000) (of_Z 0) (of_Z 10)))
              (of_Z 100000))%num.
Proof.
  split; [vm_compute; reflexivity|]. split; [vm_compute; reflexivity|].
  split; vm_compute; discriminate.
Qed.

(** The same at a rate above 0 when the power overflows: for 1000 at
    1200% over 100 years [2^1200] is [+Infinity] and the payment is
    [Infinity / Infinity]. *)
Lemma summary_totals_nan_on_overflow :
  monthlyEmi (B64.calculateEMI B64.Math_pow_ref
                (of_Z 1000) (of_Z 1200) (of_Z 100)) = NaN
  /\ totalPayable (B64.calculateEMI B64.Math_pow_ref
                     (of_Z 1000) (of_Z 1200) (of_Z 100)) = NaN.
Proof. split; vm_compute; reflexivity. Qed.

(** * Length and final balance *)




(** * The round trip of the interest *)




(** * Monotonicity *)

(** C7 (in binary64): for a principal of 0 or more, a rate of 0 or more
    and a finite payment that is at least the first period's interest
    as the generator computes it ([principal * monthlyRate], rounded),
    the balances of a returned schedule are non-increasing, the interest
    portions are non-increasing and the principal portions are
    non-decreasing: rounding to nearest is monotone, so the order
    survives every operation. *)
Theorem schedule_monotone (clock : Clock) (P R E : Q) (tenureYears : number)
  (schedule : list B64.ScheduleEntry) (j k : nat) (a b : B64.ScheduleEntry) :
  (0 <= P)%Q -> (0 <= R)%Q ->
  B64.is_double (Fin P) -> B64.is_double (Fin E) ->
  (B64.mul (Fin P) (B64.monthly_rate (Fin R)) <= Fin E)%num ->
  fst (B64.generateSchedule clock (Fin P) (Fin R) tenureYears (Fin E))
  = B64.Returned schedule ->
  (j <= k)%nat ->
  nth_error schedule j = Some a ->
  nth_error schedule k = Some b ->
  (B64.balance b <= B64.balance a)%num
  /\ (B64.interest b <= B64.interest a)%num
  /\ (B64.principal a <= B64.principal b)%num.
Proof.
  intros HP HR HdP HdE Hc Hl Hjk Ha Hb.
  destruct (B64Schedule.covered_rate P R E HP HR Hc) as (m & Em & Hm).
  destruct (B64Facts.returned_nth_inv _ _ _ _ _ _ _ _ Hl Ha)
    as (_ & _ & ->).
  destruct (B64Facts.returned_nth_inv _ _ _ _ _ _ _ _ Hl Hb)
    as (_ & _ & ->).
  rewrite Em in *.
  cbn [B64.schedule_step fst B64.balance B64.interest B64.principal].
  assert (Hin : forall n,
            B64.in_range P (B64.balance_at (Fin m) (Fin E) (Fin P) n))
    by (intros n; apply (B64Schedule.balance_at_in_range P E m); assumption).
  assert (Hanti : forall n n', (n <= n')%nat ->
            (B64.balance_at (Fin m) (Fin E) (Fin P) n'
             <= B64.balance_at (Fin m) (Fin E) (Fin P) n)%num)
    by (intros n n'; apply (B64Schedule.balance_at_antitone P E m);
        assumption).
  split; [|split].
  - apply (Hanti (S j) (S k)). lia.
  - apply (B64Schedule.interest_antitone P m Hm);
      [apply Hin|apply Hin|apply Hanti; exact Hjk].
  - apply (B64Schedule.principal_monotone P E m Hm Hc);
      [apply Hin|apply Hin|apply Hanti; exact Hjk].
Qed.

Lemma schedule_monotone_witness :
  exists schedule a b,
    fst (B64.generateSchedule (fixed_clock 2026 10)
           (Fin 50000) (Fin (15 # 2)) (of_Z 5)
           (Fin (8812782991066335 # 8796093022208)))
    = B64.Returned schedule
    /\ nth_error schedule 3 = Some a
    /\ nth_error schedule 40 = Some b
    /\ (B64.mul (Fin 50000) (B64.monthly_rate (Fin (15 # 2)))
        <= Fin (8812782991066335 # 8796093022208))%num
    /\ (B64.balance b <= B64.balance a)%num
    /\ (B64.interest b <= B64.interest a)%num
    /\ (B64.principal a <= B64.principal b)%num.
Proof.
  eexists. eexists. eexists. split; [vm_compute; reflexivity|].
  split; [vm_compute; reflexivity|]. split; [vm_compute; reflexivity|].
  split; [vm_compute; reflexivity|].
  eapply (schedule_monotone (fixed_clock 2026 10) 50000 (15 # 2)
            (8812782991066335 # 8796093022208) (of_Z 5) _ 3 40).
  - discriminate.
  - discriminate.
  - vm_compute. reflexivity.
  - vm_compute. reflexivity.
  - vm_compute. reflexivity.
  - vm_compute. reflexivity.
  - lia.
  - vm_compute. reflexivity.
  - vm_compute. reflexivity.
Defined.

(** C7, refuted for an arbitrary payment: with a payment below the first
    interest (1000 at 12% over 1 year, payment 5) the balance grows from
    the first entry to the second. *)
Lemma schedule_not_monotone :
  exists schedule a b,
    fst (B64.generateSchedule (fixed_clock 2026 10)
           (of_Z 1000) (of_Z 12) (of_Z 1) (of_Z 5))
    = B64.Returned schedule
    /\ nth_error schedule 0 = Some a
    /\ nth_error schedule 1 = Some b
    /\ (B64.balance a < B64.balance b)%num
    /\ ~ (B64.balance b <= B64.balance a)%num.
Proof.
  eexists. eexists. eexists. split; [vm_compute; reflexivity|].
  split; [vm_compute; reflexivity|]. split; [vm_compute; reflexivity|].
  split; [vm_compute; reflexivity|]. vm_compute. discriminate.
Qed.

(** * The calendar labels *)

(** C8 (as the code has it): the generator takes no start date.  It
    reads the year and the month of the system clock and labels entry
    [k] (from 0) with the month [k + 1] months after that start, with
    12-month rollover; a clock year from 0 to 99 is read as 1900 + year,
    as the [Date] constructor does.  Beyond the months a [Date] can hold
    (May -271821 to September 275760) both labels are [NaN].  The clock
    is the only input besides the arguments: a call with the same
    arguments whose clock reads the same year and month returns the
    same schedule. *)
Theorem schedule_labels_from_clock (clock clock' : Clock)
  (principal annualRate tenureYears emi : number)
  (schedule : list B64.ScheduleEntry) (k : nat) (entry : B64.ScheduleEntry) :
  fst (B64.generateSchedule clock principal annualRate tenureYears emi)
  = B64.Returned schedule ->
  nth_error schedule k = Some entry ->
  let y0 := getFullYear (reading clock (reads clock)) in
  let m0 := getMonth (reading clock (S (reads clock))) in
  let a := 12 * (if (0 <=? y0) && (y0 <=? 99) then 1900 + y0 else y0)
           + m0 + (1 + Z.of_nat k) in
  (B64.first_month <= a <= B64.last_month ->
   B64.month entry = of_Z (a mod 12 + 1) /\ B64.year entry = of_Z (a / 12))
  /\ (~ (B64.first_month <= a <= B64.last_month) ->
      B64.month entry = NaN /\ B64.year entry = NaN)
  /\ (getFullYear (reading clock' (reads clock')) = y0 ->
      getMonth (reading clock' (S (reads clock'))) = m0 ->
      fst (B64.generateSchedule clock' principal annualRate tenureYears emi)
      = B64.Returned schedule).
Proof.
  intros Hl Hk y0 m0 a.
  destruct (B64Facts.returned_nth_inv _ _ _ _ _ _ _ _ Hl Hk)
    as (_ & _ & ->).
  fold y0 m0.
  destruct (B64Facts.step_labels (B64.monthly_rate annualRate) emi y0 m0
              (1 + Z.of_nat k)
              (B64.balance_at (B64.monthly_rate annualRate) emi principal k))
    as [Hvalid Hinvalid].
  split; [exact Hvalid|]. split; [exact Hinvalid|].
  intros Hy Hm. rewrite <- Hl.
  unfold B64.generateSchedule. cbn [now fst snd reading reads].
  rewrite Hy, Hm. reflexivity.
Qed.

Lemma schedule_labels_from_clock_witness :
  exists schedule entry,
    fst (B64.generateSchedule (fixed_clock 2026 10)
           (of_Z 1000) (of_Z 12) (of_Z 1) (of_Z 100))
    = B64.Returned schedule
    /\ nth_error schedule 1 = Some entry
    /\ (B64.first_month <= 12 * 2026 + 10 + 2 <= B64.last_month)
    /\ B64.month entry = of_Z 1
    /\ B64.year entry = of_Z 2027.
Proof.
  eexists. eexists. split; [vm_compute; reflexivity|].
  split; [vm_compute; reflexivity|].
  split; [vm_compute; split; discriminate|].
  refine (proj1 (schedule_labels_from_clock (fixed_clock 2026 10)
                   (fixed_clock 2026 10)
                   (of_Z 1000) (of_Z 12) (of_Z 1) (of_Z 100) _ 1%nat _ _ _) _).
  - vm_compute. reflexivity.
  - vm_compute. reflexivity.
  - vm_compute. split; discriminate.
Defined.

(** C8, the spec's reading refuted: two calls with identical arguments,
    one made in November 2026 and one in March 2031, return different
    schedules. *)
Lemma schedule_depends_on_clock :
  fst (B64.generateSchedule (fixed_clock 2026 10)
         (of_Z 1000) (of_Z 12) (of_Z 1) (of_Z 100))
  <> fst (B64.generateSchedule (fixed_clock 2031 2)
            (of_Z 1000) (of_Z 12) (of_Z 1) (of_Z 100)).
Proof. vm_compute. discriminate. Qed.

(** After September 275760 the labels are [NaN]: the entry generated in
    August 275760 for the second month. *)
Lemma schedule_labels_run_out :
  exists schedule entry,
    fst (B64.generateSchedule (fixed_clock 275760 7)
           (of_Z 1000) (of_Z 12) (of_Z 1) (of_Z 100))
    = B64.Returned schedule
    /\ nth_error schedule 1 = Some entry
    /\ B64.month entry = NaN /\ B64.year entry = NaN.
Proof.
  eexists. eexists. split; [vm_compute; reflexivity|].
  split; [vm_compute; reflexivity|]. split; reflexivity.
Qed.

(** * The clamp *)

(** C10 (in binary64): the clamp [Math.max(0, _)] is applied in every
    period, so every balance of a returned schedule is 0 or more, or is
    [NaN] ([Math.max(0, NaN)] is [NaN]).  It is 0 or more, possibly
    [+Infinity], for every finite principal and every finite payment,
    also one below the interest, when the monthly rate as computed is
    finite and above 0. *)
Theorem schedule_balance_nonneg_or_nan (clock : Clock)
  (principal annualRate tenureYears emi : number)
  (schedule : list B64.ScheduleEntry) (k : nat) (entry : B64.ScheduleEntry) :
  fst (B64.generateSchedule clock principal annualRate tenureYears emi)
  = B64.Returned schedule ->
  nth_error schedule k = Some entry ->
  ((of_Z 0 <= B64.balance entry)%num \/ B64.balance entry = NaN)
  /\ (forall p e m : Q,
        principal = Fin p -> emi = Fin e ->
        B64.monthly_rate annualRate = Fin m -> (0 < m)%Q ->
        (of_Z 0 <= B64.balance entry)%num).
Proof.
  intros Hl Hk.
  destruct (B64Facts.returned_nth_inv _ _ _ _ _ _ _ _ Hl Hk)
    as (_ & _ & ->).
  cbn [B64.schedule_step fst B64.balance]. split.
  - match goal with
    | |- (_ <= Math_max _ ?y)%num \/ _ =>
        destruct (B64Facts.max0_nan y) as [_ Hn];
        pose proof (B64Facts.max0_nonneg y) as H0;
        destruct y as [x| | |]
    end.
    + left. apply H0. discriminate.
    + left. apply H0. discriminate.
    + left. apply H0. discriminate.
    + right. apply Hn. reflexivity.
  - intros p e m -> -> Hm Hpos. rewrite Hm.
    apply (B64Schedule.balance_at_defined m e p k Hpos).
Qed.

Lemma schedule_balance_nonneg_or_nan_witness :
  exists schedule entry,
    fst (B64.generateSchedule (fixed_clock 2026 10)
           (of_Z 1000) (of_Z 12) (of_Z 1) (of_Z 5))
    = B64.Returned schedule
    /\ nth_error schedule 11 = Some entry
    /\ (of_Z 1000 < B64.balance entry)%num
    /\ (of_Z 0 <= B64.balance entry)%num.
Proof.
  eexists. eexists. split; [vm_compute; reflexivity|].
  split; [vm_compute; reflexivity|]. split; [vm_compute; reflexivity|].
  eapply (proj2 (schedule_balance_nonneg_or_nan (fixed_clock 2026 10)
                   (of_Z 1000) (of_Z 12) (of_Z 1) (of_Z 5) _ 11%nat _ _ _));
    [reflexivity|reflexivity|vm_compute; reflexivity
    |vm_compute; reflexivity].
  Unshelve.
  2: vm_compute; reflexivity.
  vm_compute; reflexivity.
Defined.

(** C10, refuted for an arbitrary payment: at rate 0 with the payment
    -1e308 the balances are 1e308, then [+Infinity], then [NaN]
    ([Infinity * 0]), which is not 0 or more. *)
Lemma schedule_balance_nan :
  exists schedule entry,
    fst (B64.generateSchedule (fixed_clock 2026 10)
           (of_Z 5000) (of_Z 0) (of_Z 1) (B64.literal (- (10 ^ 308))))
    = B64.Returned schedule
    /\ nth_error schedule 2 = Some entry
    /\ B64.balance entry = NaN
    /\ ~ (of_Z 0 <= B64.balance entry)%num.
Proof.
  eexists. eexists. split; [vm_compute; reflexivity|].
  split; [vm_compute; reflexivity|].
  split; [vm_compute; reflexivity|]. vm_compute. discriminate.
Qed.

(** * Edge cases of the engine in binary64 *)

(** X2. A tenure of 0 years makes [calculateEMI] divide by zero.  The
    power [Math.pow(x, 0)] is 1; when the product
    [principal * monthlyRate] as computed is above 0, the payment is
    [+Infinity] and the total payable ([Infinity * 0]) and the total
    interest are [NaN].  [generateSchedule] returns an empty schedule
    for it. *)
Theorem zero_tenure (Math_pow : number -> number -> number) (clock : Clock)
  (principal annualRate emi : number) :
  Math_pow (B64.add (of_Z 1) (B64.monthly_rate annualRate)) (of_Z 0)
  = of_Z 1 ->
  (of_Z 0 < B64.mul principal (B64.monthly_rate annualRate))%num ->
  monthlyEmi (B64.calculateEMI Math_pow principal annualRate (of_Z 0))
  = PosInf
  /\ totalPayable (B64.calculateEMI Math_pow principal annualRate (of_Z 0))
     = NaN
  /\ totalInterest (B64.calculateEMI Math_pow principal annualRate (of_Z 0))
     = NaN
  /\ tenureMonths (B64.calculateEMI Math_pow principal annualRate (of_Z 0))
     = of_Z 0
  /\ fst (B64.generateSchedule clock principal annualRate (of_Z 0) emi)
     = B64.Returned [].
Proof.
  intros Hpow Hpos.
  assert (E0 : B64.mul (of_Z 0) (of_Z 12) = of_Z 0)
    by (apply (B64Facts.mul_of_Z 0 12); reflexivity).
  assert (Eemi : monthlyEmi
                   (B64.calculateEMI Math_pow principal annualRate (of_Z 0))
                 = PosInf).
  { cbn [B64.calculateEMI monthlyEmi]. rewrite E0.
    change (B64.div (B64.div annualRate (of_Z 12)) (of_Z 100))
      with (B64.monthly_rate annualRate).
    rewrite Hpow.
    assert (Hd : B64.is_double
                   (B64.mul principal (B64.monthly_rate annualRate)))
      by apply B64Facts.is_double_rnd.
    destruct (B64.mul principal (B64.monthly_rate annualRate))
      as [q| | |]; try discriminate Hpos.
    - apply B64Facts.num_lt_Fin in Hpos.
      change (inject_Z 0) with 0%Q in Hpos.
      unfold of_Z at 1. rewrite B64Facts.mul_Fin.
      rewrite (Rounding.round64_eqv (q * inject_Z 1) q) by (cbn; ring).
      unfold B64.is_double in Hd. cbn [B64.rnd] in Hd. rewrite Hd.
      change (B64.sub (of_Z 1) (of_Z 1)) with (Fin 0).
      unfold B64.div, Num.div.
      change (Qeq_bool 0 0) with true. cbn iota.
      destruct (q ?= 0)%Q eqn:C.
      + apply Qeq_alt in C. lra.
      + apply Qlt_alt in C. lra.
      + reflexivity.
    - reflexivity. }
  split; [exact Eemi|].
  assert (Etp : totalPayable
                  (B64.calculateEMI Math_pow principal annualRate (of_Z 0))
                = NaN).
  { change (totalPayable
              (B64.calculateEMI Math_pow principal annualRate (of_Z 0)))
      with (B64.mul
              (monthlyEmi
                 (B64.calculateEMI Math_pow principal annualRate (of_Z 0)))
              (B64.mul (of_Z 0) (of_Z 12))).
    rewrite Eemi, E0. reflexivity. }
  split; [exact Etp|]. split.
  { change (totalInterest
              (B64.calculateEMI Math_pow principal annualRate (of_Z 0)))
      with (B64.sub
              (totalPayable
                 (B64.calculateEMI Math_pow principal annualRate (of_Z 0)))
              principal).
    rewrite Etp. reflexivity. }
  split; [exact E0|].
  rewrite B64Facts.generateSchedule_returns; rewrite E0; reflexivity.
Qed.

Lemma zero_tenure_witness :
  (of_Z 0 < B64.mul (of_Z 50000) (B64.monthly_rate (B64.literal (15 # 2))))%num
  /\ monthlyEmi (B64.calculateEMI B64.Math_pow_ref
                   (of_Z 50000) (B64.literal (15 # 2)) (of_Z 0)) = PosInf
  /\ totalInterest (B64.calculateEMI B64.Math_pow_ref
                      (of_Z 50000) (B64.literal (15 # 2)) (of_Z 0)) = NaN.
Proof.
  split; [vm_compute; reflexivity|].
  destruct (zero_tenure B64.Math_pow_ref (fixed_clock 2026 10)
              (of_Z 50000) (B64.literal (15 # 2)) NaN)
    as (H1 & _ & H3 & _).
  - vm_compute. reflexivity.
  - vm_compute. reflexivity.
  - split; [exact H1|exact H3].
Defined.



(** X17. Every entry of a returned schedule carries the payment it was
    called with, in binary64 as well. *)
Theorem schedule_emi_field (clock : Clock)
  (principal annualRate tenureYears emi : number)
  (schedule : list B64.ScheduleEntry) (k : nat) (entry : B64.ScheduleEntry) :
  fst (B64.generateSchedule clock principal annualRate tenureYears emi)
  = B64.Returned schedule ->
  nth_error schedule k = Some entry ->
  B64.emi entry = emi.
Proof.
  intros Hl Hk.
  destruct (B64Facts.returned_nth_inv _ _ _ _ _ _ _ _ Hl Hk)
    as (_ & _ & ->).
  reflexivity.
Qed.

Lemma schedule_emi_field_witness :
  exists schedule entry,
    fst (B64.generateSchedule (fixed_clock 2026 10)
           (of_Z 1000) (of_Z 12) (of_Z 1) NaN)
    = B64.Returned schedule
    /\ nth_error schedule 7 = Some entry
    /\ B64.emi entry = NaN.
Proof.
  eexists. eexists. split; [vm_compute; reflexivity|].
  split; [vm_compute; reflexivity|].
  eapply (schedule_emi_field (fixed_clock 2026 10)
            (of_Z 1000) (of_Z 12) (of_Z 1) NaN _ 7%nat);
    vm_compute; reflexivity.
Defined.

(** X4. At an annual rate of exactly 0 and a finite payment of 0 or more
    the schedule is well defined in binary64: every entry has interest 0
    and the whole payment as its principal portion, and its balance is
    the balance before less the payment, rounded and clamped at 0, a
    finite number. *)
Theorem zero_rate_schedule (clock : Clock) (P E : Q) (tenureYears : number)
  (schedule : list B64.ScheduleEntry) (k : nat) (entry : B64.ScheduleEntry) :
  (0 <= E)%Q -> B64.is_double (Fin P) -> B64.is_double (Fin E) ->
  fst (B64.generateSchedule clock (Fin P) (of_Z 0) tenureYears (Fin E))
  = B64.Returned schedule ->
  nth_error schedule k = Some entry ->
  B64.interest entry = of_Z 0
  /\ B64.principal entry = Fin E
  /\ B64.balance entry
     = Math_max (of_Z 0)
         (B64.sub (B64.balance_before schedule (Fin P) k) (Fin E))
  /\ finite (B64.balance entry).
Proof.
  intros HE HdP HdE Hl Hk.
  destruct (B64Facts.returned_nth_inv _ _ _ _ _ _ _ _ Hl Hk)
    as (_ & Hlt & ->).
  rewrite (B64Facts.balance_before_at _ _ _ _ _ _ _ Hl Hlt).
  change (B64.monthly_rate (of_Z 0)) with (Fin 0).
  destruct (B64Edge.balance_at_zero_rate P E k HE HdE HdP) as (x & Ex & Hdx).
  destruct (B64Edge.next_balance_zero_rate E x HE HdE Hdx)
    as (Ei & Ep & x' & Ex' & _).
  cbn [B64.schedule_step fst B64.interest B64.principal B64.balance].
  rewrite Ex, Ei, Ep.
  unfold B64.next_balance in Ex'. rewrite Ei, Ep in Ex'.
  split; [reflexivity|]. split; [reflexivity|]. split; [reflexivity|].
  rewrite Ex'. exact I.
Qed.

Lemma zero_rate_schedule_witness :
  exists schedule entry,
    fst (B64.generateSchedule (fixed_clock 2026 10)
           (Fin 1) (of_Z 0) (of_Z 1) (Fin (3602879701896397 # 36028797018963968)))
    = B64.Returned schedule
    /\ nth_error schedule 2 = Some entry
    /\ B64.balance entry = B64.literal (7000000000000001 # 10000000000000000)
    /\ B64.interest entry = of_Z 0.
Proof.
  eexists. eexists. split; [vm_compute; reflexivity|].
  split; [vm_compute; reflexivity|]. split; [vm_compute; reflexivity|].
  eapply (zero_rate_schedule (fixed_clock 2026 10) 1
            (3602879701896397 # 36028797018963968) (of_Z 1) _ 2%nat).
  - discriminate.
  - vm_compute. reflexivity.
  - vm_compute. reflexivity.
  - vm_compute. reflexivity.
  - vm_compute. reflexivity.
Defined.

(** X16. The generator does not stop at the payoff in binary64 either: for a
    finite payment of 0 or more and a finite monthly rate, once an entry
    has balance 0 every later entry has balance 0 and interest 0 and
    still shows the whole payment as its principal portion. *)
Theorem paid_off_keeps_billing (clock : Clock)
  (principal annualRate tenureYears : number) (E m : Q)
  (schedule : list B64.ScheduleEntry) (j k : nat)
  (a b : B64.ScheduleEntry) :
  (0 <= E)%Q -> B64.is_double (Fin E) ->
  B64.monthly_rate annualRate = Fin m ->
  fst (B64.generateSchedule clock principal annualRate tenureYears (Fin E))
  = B64.Returned schedule ->
  (j < k)%nat ->
  nth_error schedule j = Some a ->
  nth_error schedule k = Some b ->
  (B64.balance a === of_Z 0)%num ->
  (B64.balance b === of_Z 0)%num
  /\ B64.interest b = of_Z 0
  /\ B64.principal b = Fin E.
Proof.
  intros HE HdE Em Hl Hjk Ha Hb H0.
  destruct (B64Facts.returned_nth_inv _ _ _ _ _ _ _ _ Hl Ha)
    as (_ & _ & ->).
  destruct (B64Facts.returned_nth_inv _ _ _ _ _ _ _ _ Hl Hb)
    as (_ & _ & ->).
  rewrite Em in *.
  cbn [B64.schedule_step fst B64.interest B64.principal B64.balance] in *.
  change (B64.balance_at (Fin m) (Fin E) principal (S j) === of_Z 0)%num
    in H0.
  destruct (B64.balance_at (Fin m) (Fin E) principal (S j))
    as [z| | |] eqn:Ez; try discriminate H0.
  apply B64Edge.num_eq_Fin in H0. change (inject_Z 0) with 0%Q in H0.
  destruct (B64Edge.balance_at_paid_off principal m E (S j) (k - S j) z
              HE HdE Ez H0) as (z1 & E1 & H1).
  replace (S j + (k - S j))%nat with k in E1 by lia.
  destruct (B64Edge.next_balance_paid_off m E z1 HE HdE H1)
    as (Ei & Ep & z2 & E2 & H2).
  rewrite E1, Ei, Ep.
  unfold B64.next_balance in E2. rewrite Ei, Ep in E2. rewrite E2.
  split; [|split; reflexivity].
  apply B64Edge.num_eq_Fin. exact H2.
Qed.

Lemma paid_off_keeps_billing_witness :
  exists schedule a b,
    fst (B64.generateSchedule (fixed_clock 2026 10)
           (of_Z 1000) (of_Z 12) (of_Z 1) (Fin 600))
    = B64.Returned schedule
    /\ nth_error schedule 1 = Some a
    /\ nth_error schedule 5 = Some b
    /\ (B64.balance a === of_Z 0)%num
    /\ (B64.balance b === of_Z 0)%num
    /\ B64.interest b = of_Z 0
    /\ B64.principal b = Fin 600.
Proof.
  eexists. eexists. eexists. split; [vm_compute; reflexivity|].
  split; [vm_compute; reflexivity|]. split; [vm_compute; reflexivity|].
  split; [vm_compute; reflexivity|].
  eapply (paid_off_keeps_billing (fixed_clock 2026 10)
            (of_Z 1000) (of_Z 12) (of_Z 1) 600 _ _ 1%nat 5%nat).
  - discriminate.
  - vm_compute. reflexivity.
  - vm_compute. reflexivity.
  - vm_compute. reflexivity.
  - lia.
  - vm_compute. reflexivity.
  - vm_compute. reflexivity.
  - vm_compute. reflexivity.
Defined.

(** X6. With a principal of 0 or more, a monthly rate above 0 and a
    finite payment that is at most the first period's interest as
    computed, every entry has a principal portion of 0 or less and a
    balance that is at least the balance before it (possibly
    [+Infinity]): the debt never shrinks. *)
Theorem underpayment_never_shrinks (clock : Clock) (P E m : Q)
  (annualRate tenureYears : number)
  (schedule : list B64.ScheduleEntry) (k : nat) (entry : B64.ScheduleEntry) :
  (0 <= P)%Q -> B64.is_double (Fin P) ->
  B64.monthly_rate annualRate = Fin m -> (0 < m)%Q ->
  (Fin E <= B64.mul (Fin P) (Fin m))%num ->
  fst (B64.generateSchedule clock (Fin P) annualRate tenureYears (Fin E))
  = B64.Returned schedule ->
  nth_error schedule k = Some entry ->
  (B64.principal entry <= of_Z 0)%num
  /\ (B64.balance_before schedule (Fin P) k <= B64.balance entry)%num
  /\ (Fin P <= B64.balance entry)%num.
Proof.
  intros HP HdP Em Hm Hu Hl Hk.
  destruct (B64Facts.returned_nth_inv _ _ _ _ _ _ _ _ Hl Hk)
    as (_ & Hlt & ->).
  rewrite (B64Facts.balance_before_at _ _ _ _ _ _ _ Hl Hlt).
  rewrite Em.
  cbn [B64.schedule_step fst B64.principal B64.balance].
  pose proof (B64Edge.balance_at_underpaid P E m HP HdP Hm Hu k) as Hin.
  destruct (B64Edge.next_balance_underpaid P E m HP Hm Hu _ Hin)
    as (Hnext & Hpp & Hle).
  split; [exact Hpp|]. split; [exact Hle|].
  change (Math_max (of_Z 0)
            (B64.sub (B64.balance_at (Fin m) (Fin E) (Fin P) k)
               (B64.sub (Fin E)
                  (B64.mul (B64.balance_at (Fin m) (Fin E) (Fin P) k)
                     (Fin m)))))
    with (B64.next_balance (Fin m) (Fin E)
            (B64.balance_at (Fin m) (Fin E) (Fin P) k)).
  destruct Hnext as [->|(x & -> & Hx & _)].
  - reflexivity.
  - apply B64Facts.num_le_Fin. exact Hx.
Qed.

Lemma underpayment_never_shrinks_witness :
  exists schedule entry,
    fst (B64.generateSchedule (fixed_clock 2026 10)
           (Fin 1000) (of_Z 12) (of_Z 1) (Fin 5))
    = B64.Returned schedule
    /\ nth_error schedule 11 = Some entry
    /\ (Fin 5 <= B64.mul (Fin 1000) (B64.monthly_rate (of_Z 12)))%num
    /\ (B64.principal entry <= of_Z 0)%num
    /\ (B64.balance_before schedule (Fin 1000) 11 <= B64.balance entry)%num
    /\ (Fin 1000 <= B64.balance entry)%num.
Proof.
  eexists. eexists. split; [vm_compute; reflexivity|].
  split; [vm_compute; reflexivity|]. split; [vm_compute; reflexivity|].
  eapply (underpayment_never_shrinks (fixed_clock 2026 10) 1000 5 _
            (of_Z 12) (of_Z 1) _ 11%nat).
  - discriminate.
  - vm_compute. reflexivity.
  - vm_compute. reflexivity.
  - vm_compute. reflexivity.
  - vm_compute. reflexivity.
  - vm_compute. reflexivity.
  - vm_compute. reflexivity.
Defined.

(** * Labels and row keys *)

(** X8. While the months are months a [Date] can hold, every entry's
    month is between 1 and 12 and consecutive entries carry consecutive
    calendar months: the next month of the same year, or January of the
    next year after a December. *)
Theorem labels_advance (clock : Clock)
  (principal annualRate tenureYears emi : number)
  (schedule : list B64.ScheduleEntry) (k : nat) (a b : B64.ScheduleEntry) :
  fst (B64.generateSchedule clock principal annualRate tenureYears emi)
  = B64.Returned schedule ->
  nth_error schedule k = Some a ->
  nth_error schedule (S k) = Some b ->
  let y0 := getFullYear (reading clock (reads clock)) in
  let m0 := getMonth (reading clock (S (reads clock))) in
  let first := 12 * (if (0 <=? y0) && (y0 <=? 99) then 1900 + y0 else y0)
               + m0 + (1 + Z.of_nat k) in
  B64.first_month <= first -> first + 1 <= B64.last_month ->
  exists mm yy,
    B64.month a = of_Z mm /\ B64.year a = of_Z yy /\ 1 <= mm <= 12
    /\ ((mm < 12 /\ B64.month b = of_Z (mm + 1) /\ B64.year b = of_Z yy)
        \/ (mm = 12 /\ B64.month b = of_Z 1 /\ B64.year b = of_Z (yy + 1))).
Proof.
  intros Hl Ha Hb y0 m0 first H1 H2.
  destruct (B64Facts.returned_nth_inv _ _ _ _ _ _ _ _ Hl Ha)
    as (_ & _ & ->).
  destruct (B64Facts.returned_nth_inv _ _ _ _ _ _ _ _ Hl Hb)
    as (_ & _ & ->).
  fold y0 m0.
  destruct (B64Facts.step_labels (B64.monthly_rate annualRate) emi y0 m0
              (1 + Z.of_nat k)
              (B64.balance_at (B64.monthly_rate annualRate) emi principal k))
    as [[Ema Eya] _]; [fold first; lia|].
  destruct (B64Facts.step_labels (B64.monthly_rate annualRate) emi y0 m0
              (1 + Z.of_nat (S k))
              (B64.balance_at (B64.monthly_rate annualRate) emi principal
                 (S k)))
    as [[Emb Eyb] _].
  { replace (12 * (if (0 <=? y0) && (y0 <=? 99) then 1900 + y0 else y0)
             + m0 + (1 + Z.of_nat (S k))) with (first + 1)
      by (unfold first; lia).
    lia. }
  replace (12 * (if (0 <=? y0) && (y0 <=? 99) then 1900 + y0 else y0)
           + m0 + (1 + Z.of_nat (S k))) with (first + 1) in Emb, Eyb
    by (unfold first; lia).
  fold first in Ema, Eya.
  exists (first mod 12 + 1), (first / 12).
  split; [exact Ema|]. split; [exact Eya|].
  rewrite Emb, Eyb.
  pose proof (Z.mod_pos_bound first 12 ltac:(lia)) as Hm.
  split; [lia|].
  destruct (Z.eq_dec (first mod 12) 11) as [E|NE].
  - right. split; [lia|].
    assert ((first + 1) mod 12 = 0 /\ (first + 1) / 12 = first / 12 + 1)
      as [-> ->].
    { pose proof (Z.div_mod first 12 ltac:(lia)).
      pose proof (Z.div_mod (first + 1) 12 ltac:(lia)).
      pose proof (Z.mod_pos_bound (first + 1) 12 ltac:(lia)).
      lia. }
    split; reflexivity.
  - left. split; [lia|].
    assert ((first + 1) mod 12 = first mod 12 + 1
            /\ (first + 1) / 12 = first / 12) as [-> ->].
    { pose proof (Z.div_mod first 12 ltac:(lia)).
      pose proof (Z.div_mod (first + 1) 12 ltac:(lia)).
      pose proof (Z.mod_pos_bound (first + 1) 12 ltac:(lia)).
      lia. }
    split; reflexivity.
Qed.

Lemma labels_advance_witness :
  exists schedule a b,
    fst (B64.generateSchedule (fixed_clock 2026 10)
           (of_Z 1000) (of_Z 12) (of_Z 1) (of_Z 100))
    = B64.Returned schedule
    /\ nth_error schedule 0 = Some a
    /\ nth_error schedule 1 = Some b
    /\ exists mm yy,
         B64.month a = of_Z mm /\ B64.year a = of_Z yy /\ 1 <= mm <= 12
         /\ ((mm < 12 /\ B64.month b = of_Z (mm + 1)
              /\ B64.year b = of_Z yy)
             \/ (mm = 12 /\ B64.month b = of_Z 1
                 /\ B64.year b = of_Z (yy + 1))).
Proof.
  eexists. eexists. eexists. split; [vm_compute; reflexivity|].
  split; [vm_compute; reflexivity|]. split; [vm_compute; reflexivity|].
  eapply (labels_advance (fixed_clock 2026 10)
            (of_Z 1000) (of_Z 12) (of_Z 1) (of_Z 100) _ 0%nat).
  - vm_compute. reflexivity.
  - vm_compute. reflexivity.
  - vm_compute. reflexivity.
  - vm_compute. discriminate.
  - vm_compute. discriminate.
Defined.

(** X9. The React key of a table row, [row.month + row.year], does not
    identify the row: for two entries 1 to 11 periods apart (with months
    a [Date] can hold) the keys are equal exactly when the entries are
    11 periods apart and the earlier one is not a January. *)
Theorem row_keys_collide (clock : Clock)
  (principal annualRate tenureYears emi : number)
  (schedule : list B64.ScheduleEntry) (j d : nat) (a b : B64.ScheduleEntry) :
  fst (B64.generateSchedule clock principal annualRate tenureYears emi)
  = B64.Returned schedule ->
  nth_error schedule j = Some a ->
  nth_error schedule (j + d) = Some b ->
  (1 <= d <= 11)%nat ->
  let y0 := getFullYear (reading clock (reads clock)) in
  let m0 := getMonth (reading clock (S (reads clock))) in
  let first := 12 * (if (0 <=? y0) && (y0 <=? 99) then 1900 + y0 else y0)
               + m0 + (1 + Z.of_nat j) in
  B64.first_month <= first -> first + Z.of_nat d <= B64.last_month ->
  ((B64.rowKey a === B64.rowKey b)%num
   <-> d = 11%nat /\ ~ (B64.month a === of_Z 1)%num).
Proof.
  intros Hl Ha Hb Hd y0 m0 first H1 H2.
  destruct (B64Facts.returned_nth_inv _ _ _ _ _ _ _ _ Hl Ha)
    as (_ & _ & ->).
  destruct (B64Facts.returned_nth_inv _ _ _ _ _ _ _ _ Hl Hb)
    as (_ & _ & ->).
  fold y0 m0. unfold B64.rowKey.
  destruct (B64Facts.step_labels (B64.monthly_rate annualRate) emi y0 m0
              (1 + Z.of_nat j)
              (B64.balance_at (B64.monthly_rate annualRate) emi principal j))
    as [[Ema Eya] _]; [fold first; lia|].
  destruct (B64Facts.step_labels (B64.monthly_rate annualRate) emi y0 m0
              (1 + Z.of_nat (j + d))
              (B64.balance_at (B64.monthly_rate annualRate) emi principal
                 (j + d)))
    as [[Emb Eyb] _].
  { replace (12 * (if (0 <=? y0) && (y0 <=? 99) then 1900 + y0 else y0)
             + m0 + (1 + Z.of_nat (j + d))) with (first + Z.of_nat d)
      by (unfold first; lia).
    lia. }
  replace (12 * (if (0 <=? y0) && (y0 <=? 99) then 1900 + y0 else y0)
           + m0 + (1 + Z.of_nat (j + d))) with (first + Z.of_nat d)
    in Emb, Eyb by (unfold first; lia).
  fold first in Ema, Eya.
  rewrite Ema, Eya, Emb, Eyb.
  unfold B64.first_month, B64.last_month in H1, H2.
  pose proof (Z.div_mod first 12 ltac:(lia)) as D1.
  pose proof (Z.mod_pos_bound first 12 ltac:(lia)) as M1.
  pose proof (Z.div_mod (first + Z.of_nat d) 12 ltac:(lia)) as D2.
  pose proof (Z.mod_pos_bound (first + Z.of_nat d) 12 ltac:(lia)) as M2.
  rewrite !B64Facts.add_of_Z by lia.
  rewrite !B64Edge.num_eq_of_Z.
  lia.
Qed.

Lemma row_keys_collide_witness :
  exists schedule a b,
    fst (B64.generateSchedule (fixed_clock 2026 10)
           (of_Z 1000) (of_Z 12) (of_Z 2) (of_Z 100))
    = B64.Returned schedule
    /\ nth_error schedule 0 = Some a
    /\ nth_error schedule 11 = Some b
    /\ ((B64.rowKey a === B64.rowKey b)%num
        <-> 11%nat = 11%nat /\ ~ (B64.month a === of_Z 1)%num).
Proof.
  eexists. eexists. eexists. split; [vm_compute; reflexivity|].
  split; [vm_compute; reflexivity|]. split; [vm_compute; reflexivity|].
  eapply (row_keys_collide (fixed_clock 2026 10)
            (of_Z 1000) (of_Z 12) (of_Z 2) (of_Z 100) _ 0%nat 11%nat).
  - vm_compute. reflexivity.
  - vm_compute. reflexivity.
  - vm_compute. reflexivity.
  - lia.
  - vm_compute. discriminate.
  - vm_compute. discriminate.
Defined.
